(** * videocutter: the label ledger, the clip extractor, the catalog scanner
      and the segment-selection workflow of the video labeling tool.

    The Python sources are embedded function by function:
    - [src/csv_manager.py]    -> [Module CSVManager] (over [Module Csv], the
                                 default-dialect [csv.writer] / [csv.reader]);
    - [src/clip_extractor.py] -> [Module ClipExtractor];
    - [src/video_scanner.py]  -> [Module VideoScanner];
    - [src/app.py]            -> [Module App] (the handlers of
                                 [VideoLabelingApp] that touch the ledger, the
                                 extractor or the segment selection),
                                 [Module Session] (the playback-error handler
                                 and runs of handlers), [Module Display] (the
                                 time display);
    - [src/timeline.py]       -> [Module Timeline] (the state that the setters
                                 of [TimelineWidget] keep);
    - [src/video_player.py]   -> [Module VideoPlayer] (the playback rate).

    Python [str] is [string] (a sequence of 8-bit characters: ASCII text, or
    the UTF-8 code units of other text), Python [int] is [Z], a Python
    [float] is a binary64 [float], a Python [set] of strings is a
    [gset string], [None] is [None].  Files are modelled by
    their contents; the operating system never fails to read or write a file
    that exists. *)

From Stdlib Require Import String Ascii ZArith NArith List Bool Lia PrimFloat.
From stdpp Require Import base option list gmap strings sorting.

Local Open Scope string_scope.
Local Open Scope Z_scope.
Local Open Scope list_scope.
Local Open Scope stdpp_scope.

(** ** Python values shared by the modules *)

Definition LF : ascii := "010"%char.
Definition CR : ascii := "013"%char.
Definition CRLF : string := String CR (String LF "").

(** The exceptions that the modelled code can raise. *)
Inductive exn : Type :=
  | TypeError (msg : string)
  | ValueError (msg : string)
  | FileExistsError (path : string)
  | FileNotFoundError (path : string)
  | NotADirectoryError (path : string)
  | TimeoutExpired
  | IndexError (msg : string)
  | OtherError (msg : string)
  | CsvError (msg : string).

(** Truthiness of a string: [bool(s)]. *)
Definition truthy (s : string) : bool :=
  match s with "" => false | _ => true end.

(** [s or None] for an optional output path. *)
Definition nonempty (s : string) : option string :=
  if truthy s then Some s else None.

(** [sep.join(parts)]. *)
Fixpoint join (sep : string) (parts : list string) : string :=
  match parts with
  | [] => ""
  | [p] => p
  | p :: rest => p +:+ sep +:+ join sep rest
  end.

(** [s.split(sep)] for a one-character separator: never the empty list. *)
Fixpoint split (sep : ascii) (s : string) : list string :=
  match s with
  | "" => [""]
  | String c r =>
      if Ascii.eqb c sep then "" :: split sep r
      else match split sep r with
           | [] => [String c ""]
           | w :: ws => String c w :: ws
           end
  end.

Fixpoint string_exists (p : ascii -> bool) (s : string) : bool :=
  match s with
  | "" => false
  | String c r => p c || string_exists p r
  end.

(** ** [str(int)] and [int(str)] *)
Module PyInt.

Definition digit_char (d : N) : ascii := ascii_of_N (48 + d).

Definition digit_val (c : ascii) : option Z :=
  let n := N_of_ascii c in
  if ((48 <=? n) && (n <=? 57))%N then Some (Z.of_N (n - 48)) else None.

(** Decimal digits of [n], most significant first; [fuel] bounds the number
    of digits. *)
Fixpoint digits (fuel : nat) (n : N) (acc : string) : string :=
  let acc' := String (digit_char (n mod 10)) acc in
  match fuel with
  | O => acc'
  | S fuel' => if (n / 10 =? 0)%N then acc' else digits fuel' (n / 10) acc'
  end.

Definition str_N (n : N) : string := digits (N.to_nat (N.size n)) n "".

(** [str(z)] *)
Definition str (z : Z) : string :=
  if z <? 0 then String "-" (str_N (Z.to_N (- z))) else str_N (Z.to_N z).

(** The ASCII white space that [int()] strips: [" \t\n\v\f\r"]. *)
Definition is_space (c : ascii) : bool :=
  let n := N_of_ascii c in ((9 <=? n) && (n <=? 13) || (n =? 32))%N.

Fixpoint lstrip (s : string) : string :=
  match s with
  | String c r => if is_space c then lstrip r else s
  | "" => ""
  end.

Fixpoint rstrip (s : string) : string :=
  match s with
  | "" => ""
  | String c r =>
      match rstrip r with
      | "" => if is_space c then "" else String c ""
      | r' => String c r'
      end
  end.

Definition strip (s : string) : string := rstrip (lstrip s).

(** [digit ("_"? digit)*]: underscores only between two digits. *)
Fixpoint parse_digits (acc : Z) (after_digit : bool) (s : string) : option Z :=
  match s with
  | "" => if after_digit then Some acc else None
  | String c r =>
      match digit_val c with
      | Some d => parse_digits (acc * 10 + d) true r
      | None =>
          if Ascii.eqb c "_" && after_digit then parse_digits acc false r
          else None
      end
  end.

(** [int(s)]: [None] stands for [ValueError]. *)
Definition int (s : string) : option Z :=
  match strip s with
  | "" => None
  | String c r =>
      if Ascii.eqb c "+" then parse_digits 0 false r
      else if Ascii.eqb c "-" then Z.opp <$> parse_digits 0 false r
      else parse_digits 0 false (String c r)
  end.

End PyInt.

(** ** The [csv] module, default (excel) dialect

    delimiter comma, quotechar the double quote, doublequote, no escapechar, not strict,
    no skipinitialspace, lineterminator CR LF, QUOTE_MINIMAL.  The escape
    states of the reader cannot be entered without an escapechar and are left
    out; [csv.field_size_limit()] (131072 characters) is not modelled. *)
Module Csv.

Definition delimiter : ascii := ",".
Definition quotechar : ascii := "034"%char.

(** A value handed to [writerow]: a string is written as it is, another
    object through [str()]. *)
Inductive cell : Type :=
  | CStr (s : string)
  | CInt (z : Z).

Definition cell_text (c : cell) : string :=
  match c with CStr s => s | CInt z => PyInt.str z end.

(** *** Writer *)

(** The characters that force a field into quotes. *)
Definition special (c : ascii) : bool :=
  Ascii.eqb c delimiter || Ascii.eqb c quotechar
  || Ascii.eqb c CR || Ascii.eqb c LF.

(** The field data as copied into the record: a quotechar is doubled. *)
Fixpoint copy_data (s : string) : string :=
  match s with
  | "" => ""
  | String c r =>
      if Ascii.eqb c quotechar then String quotechar (String quotechar (copy_data r))
      else String c (copy_data r)
  end.

(** [join_append] for one field. *)
Definition join_append (quoted : bool) (s : string) : string :=
  if quoted || string_exists special s
  then String quotechar (copy_data s +:+ String quotechar "")
  else copy_data s.

(** [writer.writerow(cells)]: the text written to the file.  A record made
    of one empty field is written as a pair of quotes. *)
Definition writerow (cells : list cell) : string :=
  let texts := cell_text <$> cells in
  let rec := join (String delimiter "") (join_append false <$> texts) in
  match texts, rec with
  | [t], "" => join_append true t +:+ CRLF
  | _, _ => rec +:+ CRLF
  end.

(** *** Reader *)

(** Iterating over a text file opened with [newline='']: a line ends after
    LF, after CR LF, or after a CR that no LF follows, and keeps its
    terminator; [cur] is the line read so far. *)
Fixpoint lines_from (cur : string) (s : string) : list string :=
  match s with
  | "" => match cur with "" => [] | _ => [cur] end
  | String c r =>
      if Ascii.eqb c LF then (cur +:+ String LF "") :: lines_from "" r
      else if Ascii.eqb c CR then
        match r with
        | String c2 r2 =>
            if Ascii.eqb c2 LF then (cur +:+ CRLF) :: lines_from "" r2
            else (cur +:+ String CR "") :: lines_from "" r
        | "" => [cur +:+ String CR ""]
        end
      else lines_from (cur +:+ String c "") r
  end.

Definition readlines (s : string) : list string := lines_from "" s.

Inductive ParserState : Type :=
  | START_RECORD | START_FIELD | IN_FIELD
  | IN_QUOTED_FIELD | QUOTE_IN_QUOTED_FIELD | EAT_CRNL.

(** The reader object: parser state, the field being collected, and the
    fields of the record saved so far. *)
Record Reader : Type := mkReader {
  state : ParserState;
  field : string;
  fields : list string;
}.

Definition parse_reset : Reader :=
  {| state := START_RECORD; field := ""; fields := [] |}.

Definition parse_add_char (r : Reader) (c : ascii) : Reader :=
  {| state := state r; field := field r +:+ String c ""; fields := fields r |}.

Definition parse_save_field (r : Reader) : Reader :=
  {| state := state r; field := ""; fields := fields r ++ [field r] |}.

Definition set_state (r : Reader) (s : ParserState) : Reader :=
  {| state := s; field := field r; fields := fields r |}.

(** What [parse_process_char] is given: a character of the line, or the
    end-of-line mark that follows the last character of every line. *)
Inductive input : Type :=
  | Ch (c : ascii)
  | EOL.

Definition is_newline (i : input) : bool :=
  match i with Ch c => Ascii.eqb c LF || Ascii.eqb c CR | EOL => false end.

Definition is_eol (i : input) : bool :=
  match i with EOL => true | Ch _ => false end.

Definition is_char (i : input) (d : ascii) : bool :=
  match i with Ch c => Ascii.eqb c d | EOL => false end.

Definition add_input (r : Reader) (i : input) : Reader :=
  match i with Ch c => parse_add_char r c | EOL => r end.

Definition start_field (r : Reader) (i : input) : Reader :=
  if is_newline i || is_eol i then
    set_state (parse_save_field r) (if is_eol i then START_RECORD else EAT_CRNL)
  else if is_char i quotechar then set_state r IN_QUOTED_FIELD
  else if is_char i delimiter then parse_save_field r
  else set_state (add_input r i) IN_FIELD.

(** [parse_process_char]: [None] stands for [csv.Error]. *)
Definition parse_process_char (r : Reader) (i : input) : option Reader :=
  match state r with
  | START_RECORD =>
      if is_eol i then Some r
      else if is_newline i then Some (set_state r EAT_CRNL)
      else Some (start_field (set_state r START_FIELD) i)
  | START_FIELD => Some (start_field r i)
  | IN_FIELD =>
      if is_newline i || is_eol i then
        Some (set_state (parse_save_field r)
                        (if is_eol i then START_RECORD else EAT_CRNL))
      else if is_char i delimiter then
        Some (set_state (parse_save_field r) START_FIELD)
      else Some (add_input r i)
  | IN_QUOTED_FIELD =>
      if is_eol i then Some r
      else if is_char i quotechar then Some (set_state r QUOTE_IN_QUOTED_FIELD)
      else Some (add_input r i)
  | QUOTE_IN_QUOTED_FIELD =>
      if is_char i quotechar then
        Some (set_state (add_input r i) IN_QUOTED_FIELD)
      else if is_char i delimiter then
        Some (set_state (parse_save_field r) START_FIELD)
      else if is_newline i || is_eol i then
        Some (set_state (parse_save_field r)
                        (if is_eol i then START_RECORD else EAT_CRNL))
      else Some (set_state (add_input r i) IN_FIELD)
  | EAT_CRNL =>
      if is_newline i then Some r
      else if is_eol i then Some (set_state r START_RECORD)
      else None
  end.

(** The characters of one line. *)
Fixpoint feed_chars (r : Reader) (line : string) : option Reader :=
  match line with
  | "" => Some r
  | String c rest =>
      match parse_process_char r (Ch c) with
      | Some r' => feed_chars r' rest
      | None => None
      end
  end.

(** One line: its characters, then the end-of-line mark. *)
Definition feed_line (r : Reader) (line : string) : option Reader :=
  match feed_chars r line with
  | Some r' => parse_process_char r' EOL
  | None => None
  end.

Definition is_start_record (s : ParserState) : bool :=
  match s with START_RECORD => true | _ => false end.

Definition is_in_quoted (s : ParserState) : bool :=
  match s with IN_QUOTED_FIELD => true | _ => false end.

(** The rows that iterating over the reader yields, and the [csv.Error]
    that ends the iteration if there is one.  [r] is the reader at the
    start of the next line: reset between records, kept inside a record
    that spans several lines.  At the end of the input a record that is
    still open is saved and yielded. *)
Fixpoint iterate (r : Reader) (lines : list string) : list (list string) * option exn :=
  match lines with
  | [] =>
      if truthy (field r) || is_in_quoted (state r)
      then ([fields (parse_save_field r)], None)
      else ([], None)
  | line :: rest =>
      match feed_line r line with
      | None => ([], Some (CsvError "new-line character seen in unquoted field"))
      | Some r' =>
          if is_start_record (state r')
          then let (rows, e) := iterate parse_reset rest in (fields r' :: rows, e)
          else iterate r' rest
      end
  end.

(** [csv.reader(f)] over the file contents [s]. *)
Definition reader (s : string) : list (list string) * option exn :=
  iterate parse_reset (readlines s).

End Csv.

(** ** Paths: [pathlib.PurePosixPath] and [posixpath.normpath] *)
Module Path.

Definition sep : ascii := "/".

Fixpoint starts_with (p s : string) : bool :=
  match p, s with
  | "", _ => true
  | String a p', String b s' => Ascii.eqb a b && starts_with p' s'
  | _, "" => false
  end.

(** A parsed path: the root (empty, one slash, or two slashes) and the
    components below it. *)
Record PurePath : Type := mkPath {
  root : string;
  parts : list string;
}.

(** One or two leading slashes are kept, three or more are one. *)
Definition splitroot (s : string) : string :=
  if starts_with "///" s then "/"
  else if starts_with "//" s then "//"
  else if starts_with "/" s then "/"
  else "".

Definition is_component (c : string) : bool :=
  negb (String.eqb c "" || String.eqb c ".").

(** [Path(s)]: empty components and single dots are dropped. *)
Definition of_str (s : string) : PurePath :=
  {| root := splitroot s; parts := List.filter is_component (split sep s) |}.

(** [str(p)] *)
Definition to_str (p : PurePath) : string :=
  match parts p, root p with
  | [], "" => "."
  | ps, r => r +:+ join (String sep "") ps
  end.

(** [p / s]: an absolute right operand replaces the left one. *)
Definition joinpath (p : PurePath) (s : string) : PurePath :=
  let q := of_str s in
  match root q with
  | "" => {| root := root p; parts := parts p ++ parts q |}
  | _ => q
  end.

(** [p.parent]: the root is its own parent. *)
Definition parent (p : PurePath) : PurePath :=
  {| root := root p; parts := removelast (parts p) |}.

(** [p.name] *)
Definition name (p : PurePath) : string := List.last (parts p) "".

(** [s.rfind(c)]: index of the last occurrence. *)
Fixpoint rfind (c : ascii) (s : string) : option nat :=
  match s with
  | "" => None
  | String a r =>
      match rfind c r with
      | Some i => Some (S i)
      | None => if Ascii.eqb a c then Some O else None
      end
  end.

(** The index at which the suffix of a file name starts: the last dot,
    unless it is the first or the last character. *)
Definition suffix_index (nm : string) : option nat :=
  match rfind "." nm with
  | Some i =>
      if (Nat.ltb 0 i && Nat.ltb i (String.length nm - 1))%nat then Some i else None
  | None => None
  end.

Fixpoint take (n : nat) (s : string) : string :=
  match n, s with
  | S n', String c r => String c (take n' r)
  | _, _ => ""
  end.

Fixpoint drop (n : nat) (s : string) : string :=
  match n, s with
  | S n', String _ r => drop n' r
  | _, _ => s
  end.

Definition name_suffix (nm : string) : string :=
  match suffix_index nm with Some i => drop i nm | None => "" end.

Definition name_stem (nm : string) : string :=
  match suffix_index nm with Some i => take i nm | None => nm end.

(** [p.suffix] and [p.stem] *)
Definition suffix (p : PurePath) : string := name_suffix (name p).
Definition stem (p : PurePath) : string := name_stem (name p).

(** [s.lower()] on ASCII letters. *)
Definition lower_char (c : ascii) : ascii :=
  let n := N_of_ascii c in
  if ((65 <=? n) && (n <=? 90))%N then ascii_of_N (n + 32) else c.

Fixpoint lower (s : string) : string :=
  match s with
  | "" => ""
  | String c r => String (lower_char c) (lower r)
  end.

(** One step of the component loop of [normpath]. *)
Definition norm_step (initial_slashes : bool) (new_comps : list string)
    (comp : string) : list string :=
  if String.eqb comp "" || String.eqb comp "." then new_comps
  else if negb (String.eqb comp "..")
          || (negb initial_slashes && bool_decide (new_comps = []))
          || String.eqb (List.last new_comps "") ".."
  then new_comps ++ [comp]
  else removelast new_comps.

(** [os.path.normpath(path)] on a POSIX system. *)
Definition normpath (path : string) : string :=
  match path with
  | "" => "."
  | _ =>
      let r := splitroot path in
      let comps := fold_left (norm_step (truthy r)) (split sep path) [] in
      match r +:+ join (String sep "") comps with
      | "" => "."
      | p => p
      end
  end.

End Path.

(** ** [src/csv_manager.py]: the label ledger *)
Module CSVManager.

(** The file at [csv_path]: [None] when it does not exist, its contents
    otherwise. *)
Definition store : Type := option string.

(** A ledger entry [(video_path, label, output_path)]. *)
Definition entry : Type := string * Z * option string.

(** [CSVManager(csv_path)]: [_ensure_file_exists] creates an empty file when
    there is none and leaves an existing file alone. *)
Definition _ensure_file_exists (st : store) : store :=
  match st with
  | None => Some ""
  | Some c => Some c
  end.

Definition init (st : store) : store := _ensure_file_exists st.

(** The body of the row loop of [get_labeled_videos]. *)
Definition add_labeled (labeled : gset string) (row : list string) : gset string :=
  match row with
  | video :: _ => labeled ∪ {[ Path.normpath video ]}
  | [] => labeled
  end.

(** [get_labeled_videos]: an exception of the reader ends the loop and is
    swallowed; the paths added before it stay. *)
Definition get_labeled_videos (st : store) : gset string :=
  match st with
  | None => ∅
  | Some c => fold_left add_labeled (fst (Csv.reader c)) ∅
  end.

(** The body of the row loop of [get_all_entries]: [None] when [int(row[1])]
    raises [ValueError], the entries with the row added (or skipped, when
    it has fewer than two fields) otherwise. *)
Definition add_entry (entries : list entry) (row : list string) : option (list entry) :=
  match row with
  | video_path :: label_text :: rest =>
      match PyInt.int label_text with
      | Some label =>
          let output_path := match rest with o :: _ => nonempty o | [] => None end in
          Some (entries ++ [(video_path, label, output_path)])
      | None => None
      end
  | _ => Some entries
  end.

(** The row loop inside [try: ... except Exception: pass]: an exception
    leaves the loop, and what was collected is returned. *)
Fixpoint collect (entries : list entry) (rows : list (list string)) : list entry :=
  match rows with
  | [] => entries
  | row :: rest =>
      match add_entry entries row with
      | Some entries' => collect entries' rest
      | None => entries
      end
  end.

Definition get_all_entries (st : store) : list entry :=
  match st with
  | None => []
  | Some c => collect [] (fst (Csv.reader c))
  end.

(** [_append_row]: the file is opened in append mode (and created if need
    be) and one record is written. *)
Definition _append_row (st : store) (video_path : string) (label : Z)
    (output_path : string) : store :=
  let record := Csv.writerow [Csv.CStr video_path; Csv.CInt label; Csv.CStr output_path] in
  match st with
  | None => Some record
  | Some c => Some (c +:+ record)
  end.

Definition write_pass (st : store) (video_path : string) : store :=
  _append_row st video_path 1 "".

Definition write_fail (st : store) (video_path clip_path : string) : store :=
  _append_row st video_path 0 clip_path.

Definition write_uncertain (st : store) (video_path : string) : store :=
  _append_row st video_path 2 "".

(** The record that the rewrite loop of [remove_last_entry] writes for an
    entry. *)
Definition rewrite_row (e : entry) : string :=
  let '(video_path, label, output_path) := e in
  Csv.writerow [Csv.CStr video_path; Csv.CInt label; Csv.CStr (default "" output_path)].

Fixpoint concat_rows (es : list entry) : string :=
  match es with
  | [] => ""
  | e :: rest => rewrite_row e +:+ concat_rows rest
  end.

(** [remove_last_entry]: the removed entry and the file afterwards. *)
Definition remove_last_entry (st : store) : option entry * store :=
  let entries := get_all_entries st in
  match List.rev entries with
  | [] => (None, st)
  | removed :: before => (Some removed, Some (concat_rows (List.rev before)))
  end.




End CSVManager.

(** ** [src/clip_extractor.py] *)
Module ClipExtractor.

Definition FAILURES_DIR : string := "_failures".

Inductive kind : Type := IsFile | IsDir.

#[global] Instance kind_eq_dec : EqDecision kind.
Proof. solve_decision. Defined.

(** What exists on disk, by path as [str(Path(...))] renders it.  The root
    directories and the current directory always exist. *)
Abbreviation disk := (gmap string kind).

Definition lookup_path (d : disk) (p : Path.PurePath) : option kind :=
  match Path.parts p with
  | [] => Some IsDir
  | _ => d !! Path.to_str p
  end.

(** [os.path.exists(s)] *)
Definition exists_ (d : disk) (s : string) : bool :=
  bool_decide (is_Some (lookup_path d (Path.of_str s))).

Definition is_dir (d : disk) (p : Path.PurePath) : bool :=
  match lookup_path d p with Some IsDir => true | _ => false end.

(** [os.mkdir(p)] *)
Definition os_mkdir (d : disk) (p : Path.PurePath) : exn + disk :=
  match lookup_path d p with
  | Some _ => inl (FileExistsError (Path.to_str p))
  | None =>
      match lookup_path d (Path.parent p) with
      | None => inl (FileNotFoundError (Path.to_str p))
      | Some IsFile => inl (NotADirectoryError (Path.to_str p))
      | Some IsDir => inr (<[Path.to_str p := IsDir]> d)
      end
  end.

(** [Path.mkdir(parents=True, exist_ok=True)] for the path made of [r] and
    the components [rev rparts]: a missing parent is created first; any
    other failure is forgiven when the path is a directory already. *)
Fixpoint mkdir_parents (r : string) (rparts : list string) (d : disk) : exn + disk :=
  let p := Path.mkPath r (List.rev rparts) in
  match os_mkdir d p with
  | inr d' => inr d'
  | inl (FileNotFoundError m) =>
      match rparts with
      | [] => inl (FileNotFoundError m)
      | _ :: up =>
          match mkdir_parents r up d with
          | inl e => inl e
          | inr d1 =>
              match os_mkdir d1 p with
              | inr d2 => inr d2
              | inl e => if is_dir d1 p then inr d1 else inl e
              end
          end
      end
  | inl e => if is_dir d p then inr d else inl e
  end.

Definition mkdir (p : Path.PurePath) (d : disk) : exn + disk :=
  mkdir_parents (Path.root p) (List.rev (Path.parts p)) d.

(** The outcome of [subprocess.run(cmd, capture_output=True, text=True,
    timeout=t)]. *)
Inductive completed : Type :=
  | Completed (returncode : Z) (stderr : string)
  | Timeout
  | RunError (e : exn).

(** The environment of the extractor: whether [shutil.which] finds the
    tool, and what a run of it does. *)
Record env : Type := mkEnv {
  ffmpeg_on_path : bool;
  run : list string -> Z -> completed;
}.

Definition check_ffmpeg_available (E : env) : bool := ffmpeg_on_path E.

Definition zero_pad (width : nat) (s : string) : string :=
  Nat.iter (width - String.length s) (String "0") s.

(** [format_timestamp]: HH:MM:SS.mmm.  The source computes on floats; at
    millisecond resolution the result is the one of integer arithmetic. *)
Definition format_timestamp (milliseconds : Z) : string :=
  let hours := milliseconds / 3600000 in
  let minutes := (milliseconds mod 3600000) / 60000 in
  let seconds := milliseconds mod 60000 in
  zero_pad 2 (PyInt.str hours) +:+ ":" +:+ zero_pad 2 (PyInt.str minutes) +:+ ":"
  +:+ zero_pad 2 (PyInt.str (seconds / 1000)) +:+ "."
  +:+ zero_pad 3 (PyInt.str (seconds mod 1000)).

(** [get_failures_dir]: the directory is created, and an exception of
    [mkdir] is not caught. *)
Definition get_failures_dir (root_video_dir : string) (d : disk)
    : exn + (Path.PurePath * disk) :=
  let failures_path := Path.joinpath (Path.of_str root_video_dir) FAILURES_DIR in
  match mkdir failures_path d with
  | inl e => inl e
  | inr d' => inr (failures_path, d')
  end.

Definition generate_clip_filename (source_path : string) (start_ms end_ms : Z) : string :=
  let source := Path.of_str source_path in
  let name := Path.stem source in
  let ext := Path.suffix source in
  let start_sec := start_ms / 1000 in
  let end_sec := end_ms / 1000 in
  name +:+ "_fail_" +:+ PyInt.str start_sec +:+ "s-" +:+ PyInt.str end_sec +:+ "s" +:+ ext.

Definition cmd_copy (source_path output_path start_time duration : string) : list string :=
  ["ffmpeg"; "-y"; "-ss"; start_time; "-i"; source_path; "-t"; duration;
   "-c"; "copy"; "-avoid_negative_ts"; "make_zero"; output_path].

Definition cmd_reencode (source_path output_path start_time duration : string) : list string :=
  ["ffmpeg"; "-y"; "-ss"; start_time; "-i"; source_path; "-t"; duration;
   "-c:v"; "libx264"; "-c:a"; "aac"; "-preset"; "fast"; output_path].

(** [str(e)] of an exception caught by [except Exception as e]. *)
Definition exn_text (e : exn) : string :=
  match e with
  | TypeError m | ValueError m | IndexError m | OtherError m | CsvError m => m
  | FileExistsError p => "[Errno 17] File exists: '" +:+ p +:+ "'"
  | FileNotFoundError p => "[Errno 2] No such file or directory: '" +:+ p +:+ "'"
  | NotADirectoryError p => "[Errno 20] Not a directory: '" +:+ p +:+ "'"
  | TimeoutExpired => "timed out"
  end.

(** A run of the tool that exits with code 0 has written its output file. *)
Definition written (output_path : string) (d : disk) : disk :=
  <[output_path := IsFile]> d.

(** [extract_clip]: what is returned, or the exception that escapes, and
    the disk afterwards.  The directory is created before the [try] block;
    inside it a timeout and any other exception become a failure result. *)
Definition extract_clip (E : env) (d : disk) (source_path output_path : string)
    (start_ms end_ms : Z) : (exn + bool * string) * disk :=
  if negb (check_ffmpeg_available E) then
    (inr (false, "FFmpeg not found. Please install FFmpeg and add it to your PATH."), d)
  else
    let start_time := format_timestamp start_ms in
    let duration_ms := end_ms - start_ms in
    let duration := format_timestamp duration_ms in
    match mkdir (Path.parent (Path.of_str output_path)) d with
    | inl e => (inl e, d)
    | inr d1 =>
        match run E (cmd_copy source_path output_path start_time duration) 60 with
        | Completed rc _ =>
            if rc =? 0 then
              (inr (true, "Clip saved to: " +:+ output_path), written output_path d1)
            else
              match run E (cmd_reencode source_path output_path start_time duration) 120 with
              | Completed rc2 stderr =>
                  if rc2 =? 0 then
                    (inr (true, "Clip saved (re-encoded) to: " +:+ output_path),
                     written output_path d1)
                  else (inr (false, "FFmpeg error: " +:+ stderr), d1)
              | Timeout => (inr (false, "FFmpeg timed out while extracting clip."), d1)
              | RunError e => (inr (false, "Error extracting clip: " +:+ exn_text e), d1)
              end
        | Timeout => (inr (false, "FFmpeg timed out while extracting clip."), d1)
        | RunError e => (inr (false, "Error extracting clip: " +:+ exn_text e), d1)
        end
    end.

(** The [while os.path.exists(output_path)] loop: [fuel] bounds the number
    of iterations, [None] is returned when it runs out. *)
Fixpoint free_name (fuel : nat) (d : disk) (failures_dir : Path.PurePath)
    (base ext : string) (counter : Z) (output_path : string) : option string :=
  if exists_ d output_path then
    match fuel with
    | O => None
    | S fuel' =>
        free_name fuel' d failures_dir base ext (counter + 1)
          (Path.to_str (Path.joinpath failures_dir
             (base +:+ "_" +:+ PyInt.str counter +:+ ext)))
    end
  else Some output_path.

(** The output path that [extract_failure_clip] settles on.  The loop ends
    before the fuel, one more than the number of paths on disk, runs out
    (lemma [unique_output_path_total]). *)
Definition unique_output_path (d : disk) (failures_dir : Path.PurePath)
    (clip_filename : string) : option string :=
  let output_path := Path.to_str (Path.joinpath failures_dir clip_filename) in
  let base := Path.stem (Path.of_str output_path) in
  let ext := Path.suffix (Path.of_str output_path) in
  free_name (S (size d)) d failures_dir base ext 1 output_path.

(** [extract_failure_clip]: [(success, message, clip_path)], or the
    exception that escapes. *)
Definition extract_failure_clip (E : env) (d : disk) (source_path root_video_dir : string)
    (start_ms end_ms : Z) : (exn + bool * string * option string) * disk :=
  match get_failures_dir root_video_dir d with
  | inl e => (inl e, d)
  | inr (failures_dir, d1) =>
      let clip_filename := generate_clip_filename source_path start_ms end_ms in
      match unique_output_path d1 failures_dir clip_filename with
      | None => (inl (OtherError "unreachable"), d1)
      | Some output_path =>
          match extract_clip E d1 source_path output_path start_ms end_ms with
          | (inl e, d2) => (inl e, d2)
          | (inr (true, message), d2) => (inr (true, message, Some output_path), d2)
          | (inr (false, message), d2) => (inr (false, message, None), d2)
          end
      end
  end.

End ClipExtractor.

(** ** [src/video_scanner.py] *)
Module VideoScanner.

(** [constants.VIDEO_EXTENSIONS] *)
Definition VIDEO_EXTENSIONS : gset string :=
  {[ ".mp4"; ".avi"; ".mov"; ".mkv"; ".wmv"; ".webm";
     ".flv"; ".m4v"; ".mpeg"; ".mpg"; ".3gp" ]}.

Definition is_video_file (path : Path.PurePath) : bool :=
  bool_decide (Path.lower (Path.suffix path) ∈ VIDEO_EXTENSIONS).

(** A directory as [os.walk] sees it: the names of its files, and its
    subdirectories by name, each list in the order the operating system
    happens to report. *)
#[local] Unset Elimination Schemes.
Inductive dir : Type :=
  | Dir (filenames : list string) (subdirs : list (string * dir)).
#[local] Set Elimination Schemes.

(** What [os.stat] says of the scan root, as [Path.exists] and
    [Path.is_dir] take it (Python up to 3.12): [Absent] when it fails with
    ENOENT, ENOTDIR, EBADF or ELOOP, or rejects the path with [ValueError],
    which both methods answer with [False];
    [StatFails e] when it fails with another error (a name that is too long,
    a directory on the way that may not be searched), which both methods
    let through. *)
Inductive at_root : Type :=
  | Absent
  | NotADirectory
  | Directory (d : dir)
  | StatFails (e : exn).

(** [root.exists()] *)
Definition root_exists (r : at_root) : exn + bool :=
  match r with
  | Absent => inr false
  | NotADirectory | Directory _ => inr true
  | StatFails e => inl e
  end.

(** [root.is_dir()] *)
Definition root_is_dir (r : at_root) : exn + bool :=
  match r with
  | Directory _ => inr true
  | Absent | NotADirectory => inr false
  | StatFails e => inl e
  end.

(** What [os.walk(root)] finds at the root: nothing where there is no
    directory to list. *)
Definition listing (r : at_root) : dir :=
  match r with
  | Directory d => d
  | Absent | NotADirectory | StatFails _ => Dir [] []
  end.

(** Whether a string ends with the separator. *)
Fixpoint ends_with_sep (s : string) : bool :=
  match s with
  | "" => false
  | String c "" => Ascii.eqb c Path.sep
  | String _ r => ends_with_sep r
  end.

(** [os.path.join(top, name)] for a plain name. *)
Definition os_path_join (top name : string) : string :=
  if ends_with_sep top then top +:+ name
  else match top with "" => name | _ => top +:+ "/" +:+ name end.

(** The inner loop of [scan_directory] over the files of one directory.
    [resolve] is [str(Path(s).resolve())]. *)
Definition videos_in (resolve : string -> string) (dirpath : string)
    (filenames : list string) : list string :=
  flat_map (fun filename =>
    let file_path := Path.joinpath (Path.of_str dirpath) filename in
    if is_video_file file_path then [resolve (Path.to_str file_path)] else [])
    filenames.

(** [os.walk] going down into the subdirectories left in [dirnames], [W]
    being the walk of one subdirectory.  The loop body has removed the first
    entry named [_failures] from the list ([removed] tells whether that has
    happened). *)
Definition descend_with (W : string -> dir -> list string) (dirpath : string)
    : bool -> list (string * dir) -> list string :=
  fix descend (removed : bool) (l : list (string * dir)) : list string :=
    match l with
    | [] => []
    | (name, sub) :: l' =>
        if negb removed && String.eqb name "_failures" then descend true l'
        else W (os_path_join dirpath name) sub ++ descend removed l'
    end.

(** The body of the [os.walk] loop, directory by directory, top down. *)
Fixpoint walk (resolve : string -> string) (dirpath : string) (d : dir) : list string :=
  match d with
  | Dir filenames subdirs =>
      videos_in resolve dirpath filenames
      ++ descend_with (walk resolve) dirpath false subdirs
  end.

(** [sorted(video_files)]: strings are compared character by character. *)
Definition sorted (l : list string) : list string := merge_sort String.le l.

(** [scan_directory]: the list returned, or the exception that leaves the
    function.  The guard [not root.exists() or not root.is_dir()] returns
    the empty list; [root.exists()] comes first and raises what [stat]
    fails with when that is no sign of absence. *)
Definition scan_directory (resolve : string -> string) (root_path : string)
    (r : at_root) : exn + list string :=
  match root_exists r with
  | inl e => inl e
  | inr false => inr []
  | inr true =>
      match root_is_dir r with
      | inl e => inl e
      | inr false => inr []
      | inr true =>
          inr (sorted (walk resolve (Path.to_str (Path.of_str root_path)) (listing r)))
      end
  end.

Definition filter_unlabeled (all_videos : list string) (labeled_videos : gset string)
    : list string :=
  List.filter (fun v => bool_decide (v ∉ labeled_videos)) all_videos.

End VideoScanner.

(** ** [src/app.py]: the handlers of [VideoLabelingApp]

    The window is modelled by the fields the handlers read and write, the
    ledger file and the disk, and the trace of what the handlers ask of the
    user interface (message boxes, the startup dialog) and of the player.
    Labels, frames and the progress dialog are layout and left out; a session
    is running, so [_csv_manager] is set. *)
Module App.

Inductive box : Type := Information | Warning | Critical.

Inductive ui_event : Type :=
  | MessageBox (k : box) (title text : string)
  | StartupDialog
  | PlayerLoad (video : string)
  | PlayerPlay
  | PlayerPause.

Record state : Type := mkState {
  video_queue : list string;
  current_index : Z;
  current_video : option string;
  root_dir : option string;
  segment_mode : bool;
  segment_start : option Z;
  segment_end : option Z;
  ledger : CSVManager.store;      (* the file behind [_csv_manager] *)
  files : ClipExtractor.disk;
  ui : list ui_event;
}.

(** How a handler ends: it returns, or an exception leaves it. *)
Inductive outcome : Type :=
  | Returned (st : state)
  | Raised (e : exn) (st : state).

Definition emit (st : state) (e : ui_event) : state :=
  mkState (video_queue st) (current_index st) (current_video st) (root_dir st)
    (segment_mode st) (segment_start st) (segment_end st) (ledger st) (files st)
    (ui st ++ [e]).

Definition set_ledger (st : state) (l : CSVManager.store) : state :=
  mkState (video_queue st) (current_index st) (current_video st) (root_dir st)
    (segment_mode st) (segment_start st) (segment_end st) l (files st) (ui st).

Definition set_files (st : state) (d : ClipExtractor.disk) : state :=
  mkState (video_queue st) (current_index st) (current_video st) (root_dir st)
    (segment_mode st) (segment_start st) (segment_end st) (ledger st) d (ui st).

Definition set_segment (st : state) (mode : bool) (s e : option Z) : state :=
  mkState (video_queue st) (current_index st) (current_video st) (root_dir st)
    mode s e (ledger st) (files st) (ui st).

Definition set_index (st : state) (i : Z) : state :=
  mkState (video_queue st) i (current_video st) (root_dir st)
    (segment_mode st) (segment_start st) (segment_end st) (ledger st) (files st) (ui st).

Definition set_video (st : state) (v : option string) : state :=
  mkState (video_queue st) (current_index st) v (root_dir st)
    (segment_mode st) (segment_start st) (segment_end st) (ledger st) (files st) (ui st).

Definition set_queue (st : state) (q : list string) : state :=
  mkState q (current_index st) (current_video st) (root_dir st)
    (segment_mode st) (segment_start st) (segment_end st) (ledger st) (files st) (ui st).

(** [l[i]] with Python's negative indices. *)
Definition py_index (l : list string) (i : Z) : option string :=
  let n := Z.of_nat (length l) in
  if (0 <=? i) && (i <? n) then l !! Z.to_nat i
  else if (- n <=? i) && (i <? 0) then l !! Z.to_nat (n + i)
  else None.

(** [not self._current_video] *)
Definition no_video (st : state) : bool :=
  match current_video st with
  | Some v => negb (truthy v)
  | None => true
  end.

Definition _show_startup_dialog (st : state) : outcome :=
  Returned (emit st StartupDialog).

Definition _load_current_video (st : state) : outcome :=
  if Z.of_nat (length (video_queue st)) <=? current_index st then
    _show_startup_dialog
      (emit st (MessageBox Information "Complete" "All videos have been labeled!"))
  else
    match py_index (video_queue st) (current_index st) with
    | None => Raised (IndexError "list index out of range") st
    | Some v =>
        Returned (emit (emit (set_video st (Some v)) (PlayerLoad v)) PlayerPlay)
    end.

Definition _next_video (st : state) : outcome :=
  _load_current_video (set_index st (current_index st + 1)).

Definition _mark_pass (st : state) : outcome :=
  if segment_mode st || no_video st then Returned st
  else
    _next_video (set_ledger st
      (CSVManager.write_pass (ledger st) (default "" (current_video st)))).

(** A call [m(a1, ..., an)] of a bound method that declares one parameter
    besides [self]: Python checks the number of arguments before the body
    runs. *)
Definition call_method_1 {A : Type} (qualname : string) (m : string -> A)
    (args : list string) : exn + A :=
  match args with
  | [a] => inr (m a)
  | _ =>
      inl (TypeError (qualname +:+ "() takes 2 positional arguments but "
                      +:+ PyInt.str (Z.of_nat (S (length args))) +:+ " were given"))
  end.

(** [_mark_uncertain]; [(note, ok)] is what [QInputDialog.getText]
    returns.  The handler calls [write_uncertain(self._current_video, note)]. *)
Definition _mark_uncertain (st : state) (note : string) (ok : bool) : outcome :=
  if segment_mode st || no_video st then Returned st
  else
    let st1 := emit st PlayerPause in
    if ok then
      match call_method_1 "CSVManager.write_uncertain"
              (CSVManager.write_uncertain (ledger st1))
              [default "" (current_video st1); note] with
      | inl e => Raised e st1
      | inr l => _next_video (set_ledger st1 l)
      end
    else Returned (emit st1 PlayerPlay).

Definition _enter_segment_mode (st : state) : outcome :=
  Returned (emit (set_segment st true None None) PlayerPause).

Definition _exit_segment_mode (st : state) : state :=
  set_segment st false None None.

Definition _mark_fail (E : ClipExtractor.env) (st : state) : outcome :=
  if segment_mode st || no_video st then Returned st
  else if negb (ClipExtractor.check_ffmpeg_available E) then
    Returned (emit st (MessageBox Critical "FFmpeg Not Found"
      ("FFmpeg is required to extract failure clips." +:+ String LF (String LF
       "Please install FFmpeg and add it to your system PATH."))))
  else _enter_segment_mode st.

(** [position] is what [self._player.get_position()] returns. *)
Definition _set_segment_start (st : state) (position : Z) : outcome :=
  if negb (segment_mode st) then Returned st
  else Returned (set_segment st (segment_mode st) (Some position) (segment_end st)).

Definition _set_segment_end (st : state) (position : Z) : outcome :=
  if negb (segment_mode st) then Returned st
  else Returned (set_segment st (segment_mode st) (segment_start st) (Some position)).

(** The end of [_confirm_segment], once [extract_failure_clip] has
    returned [(success, message, clip_path)]. *)
Definition after_extraction (st : state) (success : bool) (message : string)
    (clip_path : option string) : outcome :=
  if success && truthy (default "" clip_path) then
    _next_video (_exit_segment_mode (set_ledger st
      (CSVManager.write_fail (ledger st) (default "" (current_video st))
         (default "" clip_path))))
  else
    Returned (emit st (MessageBox Critical "Extraction Failed"
      ("Failed to extract clip:" +:+ String LF message))).

Definition _confirm_segment (E : ClipExtractor.env) (st : state) : outcome :=
  if negb (segment_mode st) then Returned st
  else
    match segment_start st, segment_end st with
    | Some s, Some e =>
        let start := Z.min s e in
        let end_ := Z.max s e in
        if end_ - start <? 100 then
          Returned (emit st (MessageBox Warning "Segment Too Short"
            "The selected segment is too short."))
        else
          match current_video st, root_dir st with
          | Some video, Some root =>
              match ClipExtractor.extract_failure_clip E (files st) video root start end_ with
              | (inl e, d) => Raised e (set_files st d)
              | (inr (success, message, clip_path), d) =>
                  after_extraction (set_files st d) success message clip_path
              end
          | _, _ =>
              Raised (TypeError "expected str, bytes or os.PathLike object, not NoneType") st
          end
    | _, _ =>
        Returned (emit st (MessageBox Warning "Incomplete Segment"
          "Please set both start and end points."))
    end.

(** The window when the handler ends, whichever way it ends. *)
Definition state_of (o : outcome) : state :=
  match o with Returned st | Raised _ st => st end.

Definition _cancel_segment (st : state) : outcome :=
  Returned (emit (_exit_segment_mode st) PlayerPlay).

Definition _go_previous (st : state) : outcome :=
  if segment_mode st then Returned st
  else if current_index st <=? 0 then
    Returned (emit st (MessageBox Information "No Previous Video"
      "You are at the first video."))
  else
    match CSVManager.remove_last_entry (ledger st) with
    | (Some _, l) =>
        _load_current_video (set_index (set_ledger st l) (current_index st - 1))
    | (None, l) =>
        Returned (emit (set_ledger st l) (MessageBox Warning "Cannot Go Back"
          "No previous labels to undo."))
    end.

(** [_scan_and_load_videos]; [r] is what the file system has at
    [_root_dir].  The call of [scan_directory] is in no [try] block. *)
Definition _scan_and_load_videos (resolve : string -> string)
    (r : VideoScanner.at_root) (st : state) : outcome :=
  match root_dir st with
  | None => Raised (TypeError "expected str, bytes or os.PathLike object, not NoneType") st
  | Some root =>
      match VideoScanner.scan_directory resolve root r with
      | inl e => Raised e st
      | inr all_videos =>
          let labeled := CSVManager.get_labeled_videos (ledger st) in
          let st1 := set_queue st (VideoScanner.filter_unlabeled all_videos labeled) in
          match video_queue st1 with
          | [] =>
              _show_startup_dialog (emit st1
                (match all_videos with
                 | [] => MessageBox Warning "No Videos"
                           "No video files found in the selected directory."
                 | _ => MessageBox Information "Complete"
                           ("All " +:+ PyInt.str (Z.of_nat (length all_videos))
                            +:+ " videos have been labeled!")
                 end))
          | _ => _load_current_video (set_index st1 0)
          end
      end
  end.

End App.

(** ** Auxiliary definitions for the statements and the proofs *)

(** The reader run character by character over the file contents, the
    end-of-line mark being processed where a line ends.  [r] is the reader
    after the characters of the current line read so far, [busy] tells
    whether the current line has any. *)
Module CsvRun.
Import Csv.

Definition csv_error : list (list string) * option exn :=
  ([], Some (CsvError "new-line character seen in unquoted field")).

Definition at_end (r : Reader) : list (list string) * option exn :=
  if truthy (field r) || is_in_quoted (state r)
  then ([fields (parse_save_field r)], None)
  else ([], None).

Definition next_line (r : Reader)
    (k : Reader -> list (list string) * option exn) : list (list string) * option exn :=
  match parse_process_char r EOL with
  | None => csv_error
  | Some r' =>
      if is_start_record (state r')
      then let (rows, e) := k parse_reset in (fields r' :: rows, e)
      else k r'
  end.

Definition ends_line (c : ascii) (rest : string) : bool :=
  Ascii.eqb c LF
  || (Ascii.eqb c CR && negb (Path.starts_with (String LF "") rest)).

Fixpoint run (r : Reader) (busy : bool) (s : string) : list (list string) * option exn :=
  match s with
  | "" => if busy then next_line r at_end else at_end r
  | String c rest =>
      match parse_process_char r (Ch c) with
      | None => csv_error
      | Some r' =>
          if ends_line c rest then next_line r' (fun r2 => run r2 false rest)
          else run r' true rest
      end
  end.

End CsvRun.

(** A sequence of calls of the three writers of the ledger. *)
Module Appends.
Import CSVManager.

Inductive call : Type :=
  | AppendPass (video : string)
  | AppendFail (video clip_path : string)
  | AppendUncertain (video : string).

Definition apply_call (st : store) (c : call) : store :=
  match c with
  | AppendPass v => write_pass st v
  | AppendFail v clip => write_fail st v clip
  | AppendUncertain v => write_uncertain st v
  end.

(** The ledger file after the calls, on a ledger opened on a path where
    there was no file. *)
Definition ledger_after (calls : list call) : store :=
  fold_left apply_call calls (init None).

Definition video_of (c : call) : string :=
  match c with AppendPass v | AppendFail v _ | AppendUncertain v => v end.

(** The entry that a call appends: the video, the label code (1 pass,
    0 fail, 2 uncertain) and the output path, which is absent when the
    string written for it is empty. *)
Definition entry_of (c : call) : entry :=
  match c with
  | AppendPass v => (v, 1, None)
  | AppendFail v clip => (v, 0, nonempty clip)
  | AppendUncertain v => (v, 2, None)
  end.

(** The texts of the three fields of the record written for an entry. *)
Definition row_texts (e : entry) : list string :=
  let '(video_path, label, output_path) := e in
  [video_path; PyInt.str label; default "" output_path].

(** An entry as [get_all_entries] builds it: the output path is [None]
    rather than an empty string. *)
Definition canonical (e : entry) : Prop := snd e <> Some "".

End Appends.

(** Well-formed names and paths. *)
Module Names.
Import Path.

Definition slash_free (s : string) : Prop :=
  string_exists (fun c => Ascii.eqb c sep) s = false.

(** A name that a directory entry can have, other than the dot entries. *)
Definition valid_name (s : string) : Prop :=
  slash_free s /\ is_component s = true.

(** A parsed path as [Path(...)] builds it. *)
Definition wf_path (p : PurePath) : Prop :=
  (root p = "" \/ root p = "/" \/ root p = "//") /\ Forall valid_name (parts p).

End Names.

(** The place of a clip in the failures directory of a video root. *)
Module Clips.
Import Path ClipExtractor.

Definition failures_path (root_video_dir : string) : PurePath :=
  joinpath (of_str root_video_dir) FAILURES_DIR.

(** [str(failures_dir / name)] *)
Definition clip_path (root_video_dir name : string) : string :=
  to_str (joinpath (failures_path root_video_dir) name).

End Clips.

(** Sample environments, disks and windows for the examples. *)
Module Sample.
Import ClipExtractor App.

(** The tool is installed and every run of it succeeds. *)
Definition ffmpeg_ok : env := mkEnv true (fun _ _ => Completed 0 "").

(** The tool is installed and every run of it fails. *)
Definition ffmpeg_failing : env :=
  mkEnv true (fun _ _ => Completed 1 "Invalid data found when processing input").

Definition videos : disk :=
  {[ "/v" := IsDir; "/v/a.mp4" := IsFile; "/v/b.mp4" := IsFile ]}.

(** The video root holds a regular file named [_failures]. *)
Definition blocked : disk := <["/v/_failures" := IsFile]> videos.

(** A ledger file whose second record has a label that is not a number. *)
Definition ledger_with_bad_label : CSVManager.store :=
  Some ("a.mp4,1," +:+ CRLF +:+ "b.mp4,x," +:+ CRLF +:+ "c.mp4,1," +:+ CRLF).

(** A root that cannot exist: its last component has 256 characters, more
    than a file name may have. *)
Definition long_root : string := "/v/" +:+ Nat.iter 256 (String "x") "".

(** The [OSError] that [os.stat] raises for it. *)
Definition name_too_long (p : string) : exn :=
  OtherError ("[Errno 36] File name too long: '" +:+ p +:+ "'").

(** A video root as [os.walk] may report it, and the same root reported in
    another order. *)
Definition tree : VideoScanner.dir :=
  VideoScanner.Dir ["b.mov"; "a.mp4"; "notes.txt"; "Z.MP4"]
    [("sub", VideoScanner.Dir ["c.mkv"]
               [("_failures", VideoScanner.Dir ["c_fail_0s-1s.mkv"] [])]);
     ("_failures", VideoScanner.Dir ["a_fail_1s-2s.mp4"] [])].

Definition tree_reordered : VideoScanner.dir :=
  VideoScanner.Dir ["Z.MP4"; "notes.txt"; "a.mp4"; "b.mov"]
    [("_failures", VideoScanner.Dir ["a_fail_1s-2s.mp4"] []);
     ("sub", VideoScanner.Dir ["c.mkv"]
               [("_failures", VideoScanner.Dir ["c_fail_0s-1s.mkv"] [])])].

(** The window while [/v/a.mp4] is reviewed. *)
Definition reviewing (d : disk) : state :=
  mkState ["/v/a.mp4"; "/v/b.mp4"] 0 (Some "/v/a.mp4") (Some "/v")
    false None None (Some "") d [].

(** The window when a session starts on the root [root], the ledger new. *)
Definition starting (root : string) : state :=
  mkState [] 0 None (Some root) false None None (Some "") videos [].

(** The window in segment mode, with the marks [s] and [e]. *)
Definition selecting (d : disk) (s e : option Z) : state :=
  set_segment (reviewing d) true s e.

End Sample.

(** What the catalog scan is expected to list. *)
Module Catalog.
Import Path Names VideoScanner.

(** A file name with a video extension, in any letter case. *)
Definition is_video_name (filename : string) : bool :=
  bool_decide (lower (name_suffix filename) ∈ VIDEO_EXTENSIONS).

(** [listed d dirs filename]: going down from [d] through the subdirectories
    named [dirs] leads to a directory that has the file [filename]. *)
Inductive listed : dir -> list string -> string -> Prop :=
  | listed_here filenames subdirs filename :
      filename ∈ filenames -> listed (Dir filenames subdirs) [] filename
  | listed_below filenames subdirs name sub dirs filename :
      (name, sub) ∈ subdirs -> listed sub dirs filename ->
      listed (Dir filenames subdirs) (name :: dirs) filename.

(** The path of such a file, below [root]. *)
Definition entry_path (root : PurePath) (dirs : list string) (filename : string) : PurePath :=
  joinpath (fold_left joinpath dirs root) filename.

(** A directory tree of a file system: the entries have names, and no two
    subdirectories of a directory have the same name. *)
Fixpoint wf_dir (d : dir) : Prop :=
  match d with
  | Dir filenames subdirs =>
      Forall valid_name filenames
      /\ Forall valid_name (fst <$> subdirs)
      /\ NoDup (fst <$> subdirs)
      /\ (fix all (l : list (string * dir)) : Prop :=
            match l with
            | [] => True
            | (_, sub) :: l' => wf_dir sub /\ all l'
            end) subdirs
  end.

(** The same tree, the entries of each directory reported in another order. *)
#[local] Unset Elimination Schemes.
Inductive dir_equiv : dir -> dir -> Prop :=
  | dir_equiv_Dir filenames filenames' subdirs subdirs' reordered :
      filenames ≡ₚ filenames' ->
      Forall2 (fun a b => fst a = fst b /\ dir_equiv (snd a) (snd b)) subdirs reordered ->
      reordered ≡ₚ subdirs' ->
      dir_equiv (Dir filenames subdirs) (Dir filenames' subdirs').
#[local] Set Elimination Schemes.

(** [top] is a directory path as [os.walk] builds it for the directory [p]:
    the text of [p], or that text behind a leading dot when the walk started
    at the current directory. *)
Definition dirpath_of (top : string) (p : PurePath) : Prop :=
  wf_path p
  /\ (top = to_str p
      \/ (root p = "" /\ parts p <> [] /\ top = "./" +:+ to_str p)).

Definition is_absolute (s : string) : Prop := starts_with "/" s = true.

End Catalog.

(** Counting the calls of each writer, and undoing several appends. *)
Module LedgerOps.
Import CSVManager Appends.





End LedgerOps.

(** A directory tree in which no directory lists a file name twice. *)
Module Listing.
Import VideoScanner.


End Listing.

(** ** [src/app.py]: the playback-error handler, and runs of handlers *)
Module Session.
Import App.

(** [_on_playback_error]: the slot of the player's [playback_error]
    signal. *)
Definition _on_playback_error (st : state) (error : string) : outcome :=
  _next_video (emit st (MessageBox Warning "Playback Error"
    ("Error playing video:" +:+ String LF error
     +:+ String LF (String LF "Skipping to next video.")))).

(** A call of one of the handlers of [Module App] or of
    [_on_playback_error], with what the environment answers during the
    call: the position of the player, the answer to the note dialog, the
    state of the extraction tool.  The handlers that only drive the player
    ([_toggle_play_pause], [_replay], [_toggle_slow_motion]) read and write
    none of the fields of [state] and are not listed. *)
Inductive handler : Type :=
  | MarkPass
  | MarkFail (E : ClipExtractor.env)
  | MarkUncertain (note : string) (ok : bool)
  | SetSegmentStart (position : Z)
  | SetSegmentEnd (position : Z)
  | ConfirmSegment (E : ClipExtractor.env)
  | CancelSegment
  | GoPrevious
  | PlaybackError (error : string).

Definition invoke (h : handler) (st : state) : outcome :=
  match h with
  | MarkPass => _mark_pass st
  | MarkFail E => _mark_fail E st
  | MarkUncertain note ok => _mark_uncertain st note ok
  | SetSegmentStart position => _set_segment_start st position
  | SetSegmentEnd position => _set_segment_end st position
  | ConfirmSegment E => _confirm_segment E st
  | CancelSegment => _cancel_segment st
  | GoPrevious => _go_previous st
  | PlaybackError error => _on_playback_error st error
  end.

(** The window after the handlers were called one after the other, each on
    the window as the one before left it, whether it returned or raised. *)
Definition run (hs : list handler) (st : state) : state :=
  fold_left (fun st h => state_of (invoke h st)) hs st.



End Session.

(** ** [src/timeline.py]: the state of [TimelineWidget]

    The setters, without the repaint they ask for; painting and the mouse
    handlers compute on floats and pixels and are left out. *)
Module Timeline.

Record t : Type := mkTimeline {
  _duration : Z;
  _position : Z;
  _segment_mode : bool;
  _segment_start : option Z;
  _segment_end : option Z;
}.

(** [TimelineWidget()] *)
Definition init : t := mkTimeline 0 0 false None None.

Definition set_duration (w : t) (duration_ms : Z) : t :=
  mkTimeline (Z.max 0 duration_ms) (_position w)
    (_segment_mode w) (_segment_start w) (_segment_end w).

Definition set_position (w : t) (position_ms : Z) : t :=
  mkTimeline (_duration w) (Z.max 0 (Z.min position_ms (_duration w)))
    (_segment_mode w) (_segment_start w) (_segment_end w).

Definition set_segment_mode (w : t) (enabled : bool) : t :=
  if negb enabled then mkTimeline (_duration w) (_position w) enabled None None
  else mkTimeline (_duration w) (_position w) enabled (_segment_start w) (_segment_end w).

Definition set_segment_start (w : t) (time_ms : Z) : t :=
  mkTimeline (_duration w) (_position w) (_segment_mode w) (Some time_ms) (_segment_end w).

Definition set_segment_end (w : t) (time_ms : Z) : t :=
  mkTimeline (_duration w) (_position w) (_segment_mode w) (_segment_start w) (Some time_ms).

Definition get_segment (w : t) : option Z * option Z :=
  (_segment_start w, _segment_end w).

Definition clear_segment (w : t) : t :=
  mkTimeline (_duration w) (_position w) (_segment_mode w) None None.

(** A call of one of the setters. *)
Inductive setter : Type :=
  | SetDuration (duration_ms : Z)
  | SetPosition (position_ms : Z)
  | SetSegmentMode (enabled : bool)
  | SetSegmentStart (time_ms : Z)
  | SetSegmentEnd (time_ms : Z)
  | ClearSegment.

Definition apply (w : t) (c : setter) : t :=
  match c with
  | SetDuration duration_ms => set_duration w duration_ms
  | SetPosition position_ms => set_position w position_ms
  | SetSegmentMode enabled => set_segment_mode w enabled
  | SetSegmentStart time_ms => set_segment_start w time_ms
  | SetSegmentEnd time_ms => set_segment_end w time_ms
  | ClearSegment => clear_segment w
  end.

End Timeline.

(** ** [src/app.py]: the time display *)
Module Display.

(** [_format_time]: MM:SS.  [f"{n:02d}"] pads the text of [n] with zeros
    to two characters, the sign included. *)
Definition _format_time (ms : Z) : string :=
  let total_seconds := ms / 1000 in
  let minutes := total_seconds / 60 in
  let seconds := total_seconds mod 60 in
  ClipExtractor.zero_pad 2 (PyInt.str minutes) +:+ ":"
  +:+ ClipExtractor.zero_pad 2 (PyInt.str seconds).


(** The text that [_update_segment_info] puts on the segment label. *)
Definition _update_segment_info (st : App.state) : string :=
  let start_str :=
    match App.segment_start st with Some s => _format_time s | None => "--:--" end in
  let end_str :=
    match App.segment_end st with Some e => _format_time e | None => "--:--" end in
  "Segment: " +:+ start_str +:+ " to " +:+ end_str.

End Display.

(** ** [src/video_player.py]: the playback rate of [VideoPlayer]

    A Python [float] is a binary64 number, [float] here.  The widget
    remembers the rate it has set; [rates_set] lists the rates it has passed
    to [QMediaPlayer.setPlaybackRate], in order. *)
Module VideoPlayer.

Record t : Type := mkPlayer {
  _playback_rate : float;
  rates_set : list float;
}.

(** [VideoPlayer()] *)
Definition init : t := mkPlayer 1.0%float [].


Definition get_playback_rate (p : t) : float := _playback_rate p.




End VideoPlayer.

(** The shape of the component list that the loop of [normpath] builds. *)
Module Normal.
Import Path Names.


End Normal.

(** * Properties *)

(** ** Strings *)
Section strings.

Lemma sapp_cons (c : ascii) (s t : string) : String c s +:+ t = String c (s +:+ t).
Proof. reflexivity. Qed.

Lemma sapp_nil_l (s : string) : "" +:+ s = s.
Proof. reflexivity. Qed.

Lemma sapp_nil_r (s : string) : s +:+ "" = s.
Proof. induction s as [|c s IH]; [done|]. by rewrite sapp_cons, IH. Qed.

Lemma sapp_assoc (a b c : string) : (a +:+ b) +:+ c = a +:+ (b +:+ c).
Proof. induction a as [|x a IH]; [done|]. by rewrite !sapp_cons, IH. Qed.

Lemma sapp_snoc (a : string) (c : ascii) (b : string) :
  (a +:+ String c "") +:+ b = a +:+ String c b.
Proof. by rewrite sapp_assoc. Qed.

Lemma truthy_snoc (a : string) (c : ascii) : truthy (a +:+ String c "") = true.
Proof. by destruct a. Qed.

End strings.

(** ** The reader, line by line and character by character *)
Section reader_run.
Import Csv CsvRun.

Lemma feed_chars_app (r : Reader) (a b : string) :
  feed_chars r (a +:+ b) =
  match feed_chars r a with Some r' => feed_chars r' b | None => None end.
Proof.
  revert r. induction a as [|c a IH]; intros r; [done|].
  rewrite sapp_cons. simpl. destruct (parse_process_char r (Ch c)); [apply IH|done].
Qed.

Lemma feed_chars_snoc (r : Reader) (a : string) (c : ascii) :
  feed_chars r (a +:+ String c "") =
  match feed_chars r a with Some r' => parse_process_char r' (Ch c) | None => None end.
Proof.
  rewrite feed_chars_app. destruct (feed_chars r a) as [r'|]; [|done].
  simpl. by destruct (parse_process_char r' (Ch c)).
Qed.

(** A character of a line never raises unless a new-line character was
    seen before it on the same line. *)
Lemma process_newline_some (r : Reader) (c : ascii) :
  is_newline (Ch c) = true -> is_Some (parse_process_char r (Ch c)).
Proof.
  intros Hc. unfold parse_process_char, start_field. rewrite Hc. simpl.
  destruct (state r); eauto; repeat case_match; eauto.
Qed.

Lemma iterate_line (r : Reader) (line : string) (rest : list string) :
  iterate r (line :: rest) =
  match feed_chars r line with
  | Some r1 => next_line r1 (fun r2 => iterate r2 rest)
  | None => csv_error
  end.
Proof.
  simpl. unfold feed_line, next_line.
  destruct (feed_chars r line) as [r1|]; [|done].
  destruct (parse_process_char r1 EOL) as [r2|]; done.
Qed.

Lemma iterate_fail (s : string) : forall (r : Reader) (cur : string),
  feed_chars r cur = None -> iterate r (lines_from cur s) = csv_error.
Proof.
  induction s as [|c s IH]; intros r cur Hf.
  - simpl. destruct cur as [|x cur]; [done|].
    rewrite iterate_line, Hf. done.
  - cbn [lines_from]. destruct (Ascii.eqb c LF).
    { rewrite iterate_line, feed_chars_snoc, Hf. done. }
    destruct (Ascii.eqb c CR).
    + destruct s as [|c2 s2].
      { rewrite iterate_line, feed_chars_snoc, Hf. done. }
      destruct (Ascii.eqb c2 LF).
      * rewrite iterate_line, feed_chars_app, Hf. done.
      * rewrite iterate_line, feed_chars_snoc, Hf. done.
    + apply IH. by rewrite feed_chars_snoc, Hf.
Qed.

Lemma iterate_nil (r : Reader) : iterate r [] = at_end r.
Proof. reflexivity. Qed.

(** The line-by-line reader is the character-by-character run. *)
Lemma iterate_run (s : string) : forall (r : Reader) (cur : string) (r1 : Reader),
  feed_chars r cur = Some r1 ->
  iterate r (lines_from cur s) = run r1 (truthy cur) s.
Proof.
  induction s as [|c s IH]; intros r cur r1 Hf.
  - simpl. destruct cur as [|x cur].
    + simpl in Hf. by simplify_eq.
    + rewrite iterate_line, Hf. done.
  - assert (IH0 : forall r0, iterate r0 (lines_from "" s) = run r0 false s).
    { intros r0. by apply (IH r0 "" r0). }
    cbn [lines_from run]. unfold ends_line.
    destruct (Ascii.eqb_spec c LF) as [->|HLF].
    { rewrite iterate_line, feed_chars_snoc, Hf.
      destruct (parse_process_char r1 (Ch LF)) as [r2|]; [|done].
      cbn [orb]. unfold next_line.
      destruct (parse_process_char r2 EOL) as [r3|]; [|done].
      by rewrite !IH0. }
    destruct (Ascii.eqb_spec c CR) as [->|HCR].
    + destruct s as [|c2 s2].
      { rewrite iterate_line, feed_chars_snoc, Hf.
        destruct (parse_process_char r1 (Ch CR)) as [r2|]; [|done].
        simpl. unfold next_line.
        destruct (parse_process_char r2 EOL) as [r3|]; done. }
      cbn [Path.starts_with].
      destruct (Ascii.eqb_spec c2 LF) as [->|H2].
      * destruct (parse_process_char r1 (Ch CR)) as [r2|] eqn:H1.
        2:{ destruct (process_newline_some r1 CR) as [? ?]; [done|congruence]. }
        rewrite Ascii.eqb_refl. cbn [negb andb orb].
        pose proof (IH r (cur +:+ String CR "") r2) as IH1.
        rewrite truthy_snoc in IH1. rewrite <- IH1.
        2:{ by rewrite feed_chars_snoc, Hf. }
        cbn [lines_from]. rewrite Ascii.eqb_refl.
        unfold CRLF. by rewrite sapp_snoc.
      * rewrite iterate_line, feed_chars_snoc, Hf.
        destruct (parse_process_char r1 (Ch CR)) as [r2|]; [|done].
        replace (Ascii.eqb LF c2) with false.
        2:{ symmetry. apply Ascii.eqb_neq. congruence. }
        cbn [andb orb negb]. unfold next_line.
        destruct (parse_process_char r2 EOL) as [r3|]; [|done].
        by rewrite !IH0.
    + cbn [orb andb].
      destruct (parse_process_char r1 (Ch c)) as [r2|] eqn:H1.
      * rewrite (IH r (cur +:+ String c "") r2).
        -- by rewrite truthy_snoc.
        -- by rewrite feed_chars_snoc, Hf.
      * apply iterate_fail. by rewrite feed_chars_snoc, Hf.
Qed.

Lemma reader_run (s : string) : reader s = run parse_reset false s.
Proof. unfold reader, readlines. by apply (iterate_run s parse_reset "" parse_reset). Qed.

End reader_run.

(** ** What the reader makes of what the writer wrote *)
Section writer_reader.
Import Csv CsvRun.

Local Abbreviation R := mkReader.

Lemma special_false (c : ascii) :
  special c = false ->
  Ascii.eqb c delimiter = false /\ Ascii.eqb c quotechar = false
  /\ Ascii.eqb c CR = false /\ Ascii.eqb c LF = false.
Proof. unfold special. intros H. repeat apply orb_false_elim in H as [H ?]. auto. Qed.

Lemma copy_data_plain (f : string) :
  string_exists special f = false -> copy_data f = f.
Proof.
  induction f as [|c f IH]; [done|]. simpl. intros [Hc Hf]%orb_false_elim.
  apply special_false in Hc as (_ & -> & _). by rewrite IH.
Qed.

Lemma ends_line_plain (c : ascii) (rest : string) :
  Ascii.eqb c CR = false -> Ascii.eqb c LF = false -> ends_line c rest = false.
Proof. unfold ends_line. by intros -> ->. Qed.

(** Inside quotes the end of a line changes nothing. *)
Lemma next_line_in_quoted (buf : string) (flds : list string)
    (k : Reader -> list (list string) * option exn) :
  next_line (R IN_QUOTED_FIELD buf flds) k = k (R IN_QUOTED_FIELD buf flds).
Proof. reflexivity. Qed.

Lemma run_quoted_body (f : string) : forall buf flds b t,
  run (R IN_QUOTED_FIELD buf flds) b (copy_data f +:+ String quotechar t)
  = run (R QUOTE_IN_QUOTED_FIELD (buf +:+ f) flds) true t.
Proof.
  induction f as [|c f IH]; intros buf flds b t.
  - rewrite sapp_nil_r. reflexivity.
  - cbn [copy_data]. destruct (Ascii.eqb_spec c quotechar) as [->|Hq].
    + rewrite !sapp_cons.
      change (run (R IN_QUOTED_FIELD (buf +:+ String quotechar "") flds) true
                  (copy_data f +:+ String quotechar t)
              = run (R QUOTE_IN_QUOTED_FIELD (buf +:+ String quotechar f) flds) true t).
      by rewrite IH, sapp_snoc.
    + rewrite sapp_cons. cbn [run].
      assert (parse_process_char (R IN_QUOTED_FIELD buf flds) (Ch c)
              = Some (R IN_QUOTED_FIELD (buf +:+ String c "") flds)) as ->.
      { unfold parse_process_char. cbn.
        apply Ascii.eqb_neq in Hq. by rewrite Hq. }
      destruct (ends_line c _).
      * by rewrite next_line_in_quoted, IH, sapp_snoc.
      * by rewrite IH, sapp_snoc.
Qed.

Lemma run_plain_body (f : string) : forall buf flds b t,
  string_exists special f = false ->
  run (R IN_FIELD buf flds) b (f +:+ t)
  = run (R IN_FIELD (buf +:+ f) flds) (b || truthy f) t.
Proof.
  induction f as [|c f IH]; intros buf flds b t Hf.
  - by rewrite sapp_nil_r, orb_false_r.
  - simpl in Hf. apply orb_false_elim in Hf as [Hc Hf].
    apply special_false in Hc as (Hd & Hq & HCR & HLF).
    rewrite sapp_cons. cbn [run].
    assert (parse_process_char (R IN_FIELD buf flds) (Ch c)
            = Some (R IN_FIELD (buf +:+ String c "") flds)) as ->.
    { unfold parse_process_char. cbn. by rewrite HLF, HCR, Hd. }
    rewrite ends_line_plain, IH, sapp_snoc by done.
    by rewrite orb_true_r.
Qed.

Local Abbreviation at_field flds := (R START_FIELD "" flds).

Lemma run_open_quote (flds : list string) (b : bool) (t : string) :
  run (at_field flds) b (String quotechar t) = run (R IN_QUOTED_FIELD "" flds) true t.
Proof. reflexivity. Qed.

Lemma run_close_delimiter (f : string) (flds : list string) (b : bool) (t : string) :
  run (R QUOTE_IN_QUOTED_FIELD f flds) b (String delimiter t)
  = run (at_field (flds ++ [f])) true t.
Proof. reflexivity. Qed.

Lemma run_close_crlf (st : ParserState) (f : string) (flds : list string) (b : bool)
    (t : string) :
  st = QUOTE_IN_QUOTED_FIELD \/ st = IN_FIELD \/ st = START_FIELD ->
  run (R st f flds) b (CRLF +:+ t)
  = let (rows, e) := run parse_reset false t in ((flds ++ [f]) :: rows, e).
Proof. intros [->|[->| ->]]; reflexivity. Qed.

Lemma run_plain_delimiter (f : string) (flds : list string) (b : bool) (t : string) :
  run (R IN_FIELD f flds) b (String delimiter t) = run (at_field (flds ++ [f])) true t.
Proof. reflexivity. Qed.

(** A field as written, followed by the delimiter. *)
Lemma run_field_delimiter (f : string) (flds : list string) (b : bool) (t : string) :
  run (at_field flds) b (join_append false f +:+ String delimiter t)
  = run (at_field (flds ++ [f])) true t.
Proof.
  unfold join_append. cbn [orb].
  destruct (string_exists special f) eqn:Hs.
  - rewrite sapp_cons, sapp_assoc, sapp_cons, sapp_nil_l.
    by rewrite run_open_quote, run_quoted_body, run_close_delimiter.
  - rewrite copy_data_plain by done.
    destruct f as [|c f]; [done|].
    simpl in Hs. apply orb_false_elim in Hs as [Hc Hf].
    apply special_false in Hc as (Hd & Hq & HCR & HLF).
    rewrite sapp_cons. cbn [run].
    assert (parse_process_char (R START_FIELD "" flds) (Ch c)
            = Some (R IN_FIELD (String c "") flds)) as ->.
    { unfold parse_process_char, start_field. cbn. by rewrite HLF, HCR, Hq, Hd. }
    by rewrite ends_line_plain, run_plain_body, run_plain_delimiter by done.
Qed.

(** The last field as written, followed by the line terminator: the record
    is complete. *)
Lemma run_field_crlf (f : string) (flds : list string) (b : bool) (t : string) :
  run (at_field flds) b (join_append false f +:+ CRLF +:+ t)
  = let (rows, e) := run parse_reset false t in ((flds ++ [f]) :: rows, e).
Proof.
  unfold join_append. cbn [orb].
  destruct (string_exists special f) eqn:Hs.
  - rewrite sapp_cons, sapp_assoc, sapp_cons, sapp_nil_l.
    rewrite run_open_quote, run_quoted_body. apply run_close_crlf; auto.
  - rewrite copy_data_plain by done.
    destruct f as [|c f]; [apply run_close_crlf; auto|].
    simpl in Hs. apply orb_false_elim in Hs as [Hc Hf].
    apply special_false in Hc as (Hd & Hq & HCR & HLF).
    rewrite sapp_cons. cbn [run].
    assert (parse_process_char (R START_FIELD "" flds) (Ch c)
            = Some (R IN_FIELD (String c "") flds)) as ->.
    { unfold parse_process_char, start_field. cbn. by rewrite HLF, HCR, Hq, Hd. }
    rewrite ends_line_plain, run_plain_body by done. apply run_close_crlf; auto.
Qed.

(** The first character of a record of several fields is no new-line
    character, so the record starts like a field. *)
Lemma run_first_field (f : string) (b : bool) (t : string) :
  run parse_reset b (join_append false f +:+ String delimiter t)
  = run (at_field []) b (join_append false f +:+ String delimiter t).
Proof.
  unfold join_append. cbn [orb].
  destruct (string_exists special f) eqn:Hs; [done|].
  rewrite copy_data_plain by done.
  destruct f as [|c f]; [done|].
  simpl in Hs. apply orb_false_elim in Hs as [Hc Hf].
  apply special_false in Hc as (Hd & Hq & HCR & HLF).
  rewrite sapp_cons. cbn [run]. unfold parse_process_char. cbn.
  by rewrite HLF, HCR.
Qed.

(** A record of three cells is read back as the texts of its cells. *)
Lemma run_writerow3 (a b c : cell) (t : string) :
  run parse_reset false (writerow [a; b; c] +:+ t)
  = let (rows, e) := run parse_reset false t in
    ([cell_text a; cell_text b; cell_text c] :: rows, e).
Proof.
  unfold writerow. cbn [fmap list_fmap join].
  rewrite !sapp_assoc.
  repeat change (String delimiter "" +:+ ?x) with (String delimiter x).
  by rewrite run_first_field, !run_field_delimiter, run_field_crlf.
Qed.

End writer_reader.

(** ** [int(str(z)) = z] *)
Section pyint.
Import PyInt.

Lemma digit_cases (d : N) :
  (d < 10)%N ->
  d = 0%N \/ d = 1%N \/ d = 2%N \/ d = 3%N \/ d = 4%N \/ d = 5%N \/ d = 6%N
  \/ d = 7%N \/ d = 8%N \/ d = 9%N.
Proof. lia. Qed.

Lemma digit_val_char (d : N) : (d < 10)%N -> digit_val (digit_char d) = Some (Z.of_N d).
Proof. intros H. destruct (digit_cases d H) as [->|[->|[->|[->|[->|[->|[->|[->|[->| ->]]]]]]]]]; reflexivity. Qed.

Lemma digit_char_plain (d : N) :
  (d < 10)%N ->
  is_space (digit_char d) = false /\ Ascii.eqb (digit_char d) "+" = false
  /\ Ascii.eqb (digit_char d) "-" = false /\ Csv.special (digit_char d) = false.
Proof. intros H. destruct (digit_cases d H) as [->|[->|[->|[->|[->|[->|[->|[->|[->| ->]]]]]]]]]; done. Qed.

Lemma mod10_lt (n : N) : (n mod 10 < 10)%N.
Proof. apply N.mod_lt. lia. Qed.

Lemma digits_head (fuel : nat) : forall n acc,
  exists d rest, (d < 10)%N /\ digits fuel n acc = String (digit_char d) rest.
Proof.
  induction fuel as [|fuel IH]; intros n acc; simpl.
  - eauto using mod10_lt.
  - destruct (n / 10 =? 0)%N; eauto using mod10_lt.
Qed.

Lemma digits_exists (p : ascii -> bool) (fuel : nat) : forall n acc,
  (forall d, (d < 10)%N -> p (digit_char d) = false) ->
  string_exists p (digits fuel n acc) = string_exists p acc.
Proof.
  intros n acc Hp. revert n acc.
  induction fuel as [|fuel IH]; intros n acc; simpl.
  - by rewrite Hp by apply mod10_lt.
  - destruct (n / 10 =? 0)%N; [|rewrite IH]; simpl; by rewrite Hp by apply mod10_lt.
Qed.

Lemma digits_parse (fuel : nat) : forall n acc a b,
  (n < 2 ^ N.of_nat fuel)%N ->
  exists k, 0 <= k /\
    parse_digits a b (digits fuel n acc) = parse_digits (a * 10 ^ k + Z.of_N n) true acc.
Proof.
  induction fuel as [|fuel IH]; intros n acc a b Hn.
  - assert (n = 0%N) as -> by (simpl in Hn; lia).
    exists 1. split; [lia|]. cbn [digits parse_digits].
    change (0 mod 10)%N with 0%N.
    rewrite digit_val_char by lia. f_equal; lia.
  - cbn [digits]. destruct (N.eqb_spec (n / 10) 0) as [Hz|Hz].
    + exists 1. split; [lia|]. cbn [parse_digits].
      rewrite digit_val_char by apply mod10_lt.
      f_equal. rewrite N.mod_small; [lia|].
      apply N.div_small_iff in Hz; lia.
    + destruct (IH (n / 10)%N (String (digit_char (n mod 10)) acc) a b) as (k & Hk & ->).
      { replace (N.of_nat (S fuel)) with (N.succ (N.of_nat fuel)) in Hn by lia.
        rewrite N.pow_succ_r' in Hn.
        apply N.Div0.div_lt_upper_bound. lia. }
      exists (k + 1). split; [lia|]. cbn [parse_digits].
      rewrite digit_val_char by apply mod10_lt. f_equal.
      rewrite Z.pow_add_r by lia.
      pose proof (N.div_mod n 10 ltac:(lia)) as Hdm.
      rewrite Hdm at 3. lia.
Qed.

Lemma parse_str_N (n : N) : parse_digits 0 false (str_N n) = Some (Z.of_N n).
Proof.
  unfold str_N.
  destruct (digits_parse (N.to_nat (N.size n)) n "" 0 false) as (k & _ & ->).
  - rewrite N2Nat.id. apply N.size_gt.
  - simpl. f_equal.
Qed.

Lemma lstrip_plain (s : string) : string_exists is_space s = false -> lstrip s = s.
Proof. destruct s as [|c s]; [done|]. simpl. by intros [-> _]%orb_false_elim. Qed.

Lemma rstrip_plain (s : string) : string_exists is_space s = false -> rstrip s = s.
Proof.
  induction s as [|c s IH]; [done|]. simpl. intros [Hc Hs]%orb_false_elim.
  rewrite IH, Hc by done. by destruct s.
Qed.

Lemma strip_plain (s : string) : string_exists is_space s = false -> strip s = s.
Proof. intros H. unfold strip. by rewrite lstrip_plain, rstrip_plain. Qed.

Lemma str_N_space (n : N) : string_exists is_space (str_N n) = false.
Proof. unfold str_N. rewrite digits_exists; [done|]. intros d Hd. by apply digit_char_plain. Qed.

(** The text of an integer needs no quotes in a record. *)
Lemma str_special (z : Z) : string_exists Csv.special (str z) = false.
Proof.
  assert (forall n, string_exists Csv.special (str_N n) = false) as HN.
  { intros n. unfold str_N. rewrite digits_exists; [done|].
    intros d Hd. by apply digit_char_plain. }
  unfold str. destruct (z <? 0); [simpl|]; by rewrite HN.
Qed.

Lemma int_str (z : Z) : int (str z) = Some z.
Proof.
  unfold int, str. destruct (Z.ltb_spec z 0) as [Hz|Hz].
  - rewrite strip_plain by (simpl; apply str_N_space).
    change (Z.opp <$> parse_digits 0 false (str_N (Z.to_N (- z))) = Some z).
    rewrite parse_str_N. simpl. f_equal. lia.
  - rewrite strip_plain by apply str_N_space.
    pose proof (parse_str_N (Z.to_N z)) as Hp. unfold str_N in *.
    destruct (digits_head (N.to_nat (N.size (Z.to_N z))) (Z.to_N z) "") as (d & rest & Hd & Heq).
    rewrite Heq in *.
    destruct (digit_char_plain d Hd) as (_ & -> & -> & _).
    rewrite Hp. f_equal. lia.
Qed.

End pyint.

(** ** The ledger read back *)
Section ledger.
Import CSVManager Appends.

Lemma concat_rows_app (a b : list entry) :
  concat_rows (a ++ b) = concat_rows a +:+ concat_rows b.
Proof. induction a as [|e a IH]; [done|]. simpl. by rewrite IH, sapp_assoc. Qed.

Lemma reader_concat_rows (es : list entry) :
  Csv.reader (concat_rows es) = (row_texts <$> es, None).
Proof.
  rewrite reader_run. induction es as [|[[v l] o] es IH]; [done|].
  cbn [concat_rows rewrite_row]. rewrite run_writerow3, IH. done.
Qed.

Lemma nonempty_default (o : option string) : o <> Some "" -> nonempty (default "" o) = o.
Proof. destruct o as [[|c s]|]; done. Qed.

Lemma default_nonempty (s : string) : default "" (nonempty s) = s.
Proof. by destruct s. Qed.

Lemma add_entry_row_texts (acc : list entry) (e : entry) :
  canonical e -> add_entry acc (row_texts e) = Some (acc ++ [e]).
Proof.
  destruct e as [[v l] o]. unfold canonical. simpl. intros Ho.
  by rewrite int_str, nonempty_default.
Qed.

Lemma collect_row_texts (es : list entry) : forall acc,
  Forall canonical es -> collect acc (row_texts <$> es) = acc ++ es.
Proof.
  induction es as [|e es IH]; intros acc Hes.
  - by rewrite app_nil_r.
  - inversion_clear Hes. cbn [fmap list_fmap collect].
    rewrite add_entry_row_texts by done.
    change (collect (acc ++ [e]) (row_texts <$> es) = acc ++ e :: es).
    rewrite IH by done. by rewrite <- app_assoc.
Qed.

(** Entries written by the rewrite loop are read back as they were. *)
Lemma get_all_entries_concat_rows (es : list entry) :
  Forall canonical es -> get_all_entries (Some (concat_rows es)) = es.
Proof.
  intros Hes. unfold get_all_entries. rewrite reader_concat_rows. simpl.
  by rewrite collect_row_texts.
Qed.

Lemma add_entry_canonical (acc acc' : list entry) (row : list string) :
  Forall canonical acc -> add_entry acc row = Some acc' -> Forall canonical acc'.
Proof.
  unfold add_entry. intros Hacc H.
  destruct row as [|v [|lt rest]]; simplify_eq; try done.
  destruct (PyInt.int lt) as [l|]; simplify_eq.
  apply Forall_app. split; [done|]. constructor; [|done].
  unfold canonical. simpl. destruct rest as [|[|c o] rest]; done.
Qed.

Lemma collect_canonical (rows : list (list string)) : forall acc,
  Forall canonical acc -> Forall canonical (collect acc rows).
Proof.
  induction rows as [|row rows IH]; intros acc Hacc; [done|]. simpl.
  destruct (add_entry acc row) as [acc'|] eqn:H; [|done].
  eauto using add_entry_canonical.
Qed.

Lemma get_all_entries_canonical (st : store) : Forall canonical (get_all_entries st).
Proof. destruct st as [c|]; [apply collect_canonical|]; constructor. Qed.

Lemma entry_of_canonical (c : call) : canonical (entry_of c).
Proof. destruct c as [v|v [|x clip]|v]; done. Qed.

Lemma apply_call_row (text : string) (c : call) :
  apply_call (Some text) c = Some (text +:+ rewrite_row (entry_of c)).
Proof. destruct c as [v|v clip|v]; try done. simpl. by rewrite default_nonempty. Qed.

Lemma fold_apply_call (calls : list call) : forall text,
  fold_left apply_call calls (Some text)
  = Some (text +:+ concat_rows (entry_of <$> calls)).
Proof.
  induction calls as [|c calls IH]; intros text; simpl.
  - by rewrite sapp_nil_r.
  - by rewrite apply_call_row, IH, sapp_assoc.
Qed.

(** The ledger file after a sequence of appends holds one record per call. *)
Lemma ledger_after_rows (calls : list call) :
  ledger_after calls = Some (concat_rows (entry_of <$> calls)).
Proof. unfold ledger_after. simpl. by rewrite fold_apply_call. Qed.

Lemma get_all_entries_ledger_after (calls : list call) :
  get_all_entries (ledger_after calls) = entry_of <$> calls.
Proof.
  rewrite ledger_after_rows, get_all_entries_concat_rows; [done|].
  apply Forall_fmap, Forall_true, entry_of_canonical.
Qed.

Lemma fold_add_labeled (es : list entry) : forall acc : gset string,
  fold_left add_labeled (row_texts <$> es) acc
  = acc ∪ list_to_set ((fun e : entry => Path.normpath (fst (fst e))) <$> es).
Proof.
  induction es as [|[[v l] o] es IH]; intros acc; simpl.
  - by rewrite (right_id_L ∅ (∪)).
  - rewrite IH. by rewrite (assoc_L (∪)).
Qed.

Lemma get_labeled_videos_concat_rows (es : list entry) :
  get_labeled_videos (Some (concat_rows es))
  = list_to_set ((fun e : entry => Path.normpath (fst (fst e))) <$> es).
Proof.
  unfold get_labeled_videos. rewrite reader_concat_rows. simpl.
  by rewrite fold_add_labeled, (left_id_L ∅ (∪)).
Qed.

Lemma video_of_entry_of (c : call) : fst (fst (entry_of c)) = video_of c.
Proof. by destruct c. Qed.

Lemma get_labeled_videos_ledger_after (calls : list call) :
  get_labeled_videos (ledger_after calls)
  = list_to_set ((fun c => Path.normpath (video_of c)) <$> calls).
Proof.
  rewrite ledger_after_rows, get_labeled_videos_concat_rows. f_equal.
  rewrite <- list_fmap_compose. apply list_fmap_ext. intros _ c _.
  simpl. by rewrite video_of_entry_of.
Qed.

End ledger.

(** ** The claims about the ledger *)
Section ledger_claims.
Import CSVManager Appends.

(** C3, amended.  For every sequence of [write_pass] / [write_fail] /
    [write_uncertain] calls on a ledger, [get_all_entries] returns the
    entries of the calls in call order, and does so again after the ledger
    is opened anew on the same file.  [get_labeled_videos] is the set of the
    video paths of the calls as [os.path.normpath] renders them; when the
    video paths are normalised already, as a Video Path is, it is the set
    of the distinct video paths of the entries. *)
Theorem appends_read_back (calls : list call) :
  get_all_entries (ledger_after calls) = entry_of <$> calls
  /\ get_all_entries (init (ledger_after calls)) = entry_of <$> calls
  /\ get_labeled_videos (ledger_after calls)
     = list_to_set ((fun c => Path.normpath (video_of c)) <$> calls)
  /\ (Forall (fun c => Path.normpath (video_of c) = video_of c) calls ->
      get_labeled_videos (ledger_after calls) = list_to_set (video_of <$> calls)).
Proof.
  split_and!.
  - apply get_all_entries_ledger_after.
  - assert (init (ledger_after calls) = ledger_after calls) as ->
      by (by rewrite ledger_after_rows).
    apply get_all_entries_ledger_after.
  - apply get_labeled_videos_ledger_after.
  - intros Hnorm. rewrite get_labeled_videos_ledger_after. f_equal.
    apply Forall_fmap_ext_1. done.
Qed.

Lemma appends_read_back_witness :
  let calls := [AppendPass "/v/a.mp4";
                AppendFail "/v/b,1.mp4" "/v/_failures/b,1_fail_1s-2s.mp4";
                AppendUncertain "/v/c.mp4"; AppendPass "/v/b,1.mp4"] in
  Forall (fun c => Path.normpath (video_of c) = video_of c) calls
  /\ get_all_entries (ledger_after calls)
     = [("/v/a.mp4", 1, None);
        ("/v/b,1.mp4", 0, Some "/v/_failures/b,1_fail_1s-2s.mp4");
        ("/v/c.mp4", 2, None); ("/v/b,1.mp4", 1, None)]
  /\ get_labeled_videos (ledger_after calls)
     = list_to_set ["/v/a.mp4"; "/v/b,1.mp4"; "/v/c.mp4"; "/v/b,1.mp4"].
Proof.
  intros calls.
  assert (Forall (fun c => Path.normpath (video_of c) = video_of c) calls) as Hnorm.
  { repeat constructor. }
  split; [exact Hnorm|]. split.
  - exact (proj1 (appends_read_back calls)).
  - exact (proj2 (proj2 (proj2 (appends_read_back calls))) Hnorm).
Defined.

(** C3, the claim as it is written.  After [write_pass("/v//a.mp4")] the
    entry read back has the video path as it was written, and the labeled
    set holds the path as [os.path.normpath] renders it, [/v/a.mp4]: the
    set is not the set of the video paths of the entries. *)
Lemma labeled_set_holds_normalised_paths :
  get_all_entries (ledger_after [AppendPass "/v//a.mp4"]) = [("/v//a.mp4", 1, None)]
  /\ get_labeled_videos (ledger_after [AppendPass "/v//a.mp4"]) = {[ "/v/a.mp4" ]}
  /\ get_labeled_videos (ledger_after [AppendPass "/v//a.mp4"])
     <> list_to_set ((fun e : entry => fst (fst e))
                       <$> get_all_entries (ledger_after [AppendPass "/v//a.mp4"])).
Proof.
  assert (get_labeled_videos (ledger_after [AppendPass "/v//a.mp4"])
          = {[ "/v/a.mp4" ]}) as Hset.
  { rewrite get_labeled_videos_ledger_after. cbn [fmap list_fmap video_of].
    replace (Path.normpath "/v//a.mp4") with "/v/a.mp4" by (vm_compute; reflexivity).
    set_solver. }
  rewrite get_all_entries_ledger_after. cbn [fmap list_fmap entry_of fst].
  split_and!; [done|exact Hset|].
  rewrite Hset. intros Heq.
  assert ("/v//a.mp4" ∈ ({[ "/v/a.mp4" ]} : gset string)) as Hin
    by (rewrite Heq; set_solver).
  apply elem_of_singleton in Hin. discriminate Hin.
Qed.

(** A record whose label field is no integer ends the read of
    [get_all_entries]: the entries before it are returned, the records after
    it are lost; [get_labeled_videos] does not look at the label and keeps
    going. *)
Lemma get_all_entries_stops (es1 es2 : list entry) (v label_text o : string) :
  Forall canonical es1 ->
  PyInt.int label_text = None ->
  get_all_entries (Some (concat_rows es1
      +:+ Csv.writerow [Csv.CStr v; Csv.CStr label_text; Csv.CStr o]
      +:+ concat_rows es2)) = es1.
Proof.
  intros Hes Hint. unfold get_all_entries. rewrite reader_run.
  assert (forall acc, collect acc
            (fst (CsvRun.run Csv.parse_reset false (concat_rows es1
              +:+ Csv.writerow [Csv.CStr v; Csv.CStr label_text; Csv.CStr o]
              +:+ concat_rows es2))) = acc ++ es1) as H; [|apply H].
  induction Hes as [|[[v1 l1] o1] es1 He1 Hes IH]; intros acc.
  - rewrite sapp_nil_l, run_writerow3.
    destruct (CsvRun.run _ _ _) as [rows e]. simpl. rewrite Hint. by rewrite app_nil_r.
  - cbn [concat_rows rewrite_row]. rewrite sapp_assoc, run_writerow3.
    destruct (CsvRun.run _ _ _) as [rows e] eqn:Hrun. cbn [fst collect].
    pose proof (add_entry_row_texts acc (v1, l1, o1) He1) as Hadd.
    cbn [row_texts] in Hadd. cbn [Csv.cell_text]. rewrite Hadd.
    specialize (IH (acc ++ [(v1, l1, o1)])). simpl in IH.
    etrans; [exact IH|]. by rewrite <- app_assoc.
Qed.

(** C4 (the code departs from the claim).  The ledger file holds the record
    of [a.mp4], a record of [b.mp4] whose label is [x], and the record of
    [c.mp4].  [get_all_entries] returns the entry of [a.mp4] only: the read
    is aborted at the malformed record and the well-formed entry of [c.mp4]
    is not returned.  [get_labeled_videos] does not skip the malformed
    record: [b.mp4] counts as labeled.  [remove_last_entry] then removes the
    entry of [a.mp4] and rewrites the file without the record of [c.mp4]. *)
Theorem malformed_row_aborts_read :
  get_all_entries Sample.ledger_with_bad_label = [("a.mp4", 1, None)]
  /\ get_labeled_videos Sample.ledger_with_bad_label = {[ "a.mp4"; "b.mp4"; "c.mp4" ]}
  /\ remove_last_entry Sample.ledger_with_bad_label = (Some ("a.mp4", 1, None), Some "").
Proof.
  split_and!.
  - vm_compute. reflexivity.
  - unfold get_labeled_videos, Sample.ledger_with_bad_label.
    replace (fst (Csv.reader _)) with [["a.mp4"; "1"; ""]; ["b.mp4"; "x"; ""]; ["c.mp4"; "1"; ""]]
      by (vm_compute; reflexivity).
    cbn [fold_left add_labeled].
    replace (Path.normpath "a.mp4") with "a.mp4" by (vm_compute; reflexivity).
    replace (Path.normpath "b.mp4") with "b.mp4" by (vm_compute; reflexivity).
    replace (Path.normpath "c.mp4") with "c.mp4" by (vm_compute; reflexivity).
    set_solver.
  - vm_compute. reflexivity.
Qed.

(** C5.  When the ledger has no entry, [remove_last_entry] returns [None]
    and leaves the file as it is (absent or not).  When its entries are
    [before] followed by [e], it returns [e] and rewrites the file so that
    [get_all_entries] returns exactly [before].  After a sequence of appends
    the entry returned is the one of the last call, and the entries left
    are those of the calls before it, in order. *)
Theorem remove_last_entry_pops (st : store) :
  (get_all_entries st = [] -> remove_last_entry st = (None, st))
  /\ (forall before e, get_all_entries st = before ++ [e] ->
      exists st', remove_last_entry st = (Some e, st')
                  /\ get_all_entries st' = before)
  /\ (forall calls c, st = ledger_after (calls ++ [c]) ->
      exists st', remove_last_entry st = (Some (entry_of c), st')
                  /\ get_all_entries st' = entry_of <$> calls).
Proof.
  assert (forall before e, get_all_entries st = before ++ [e] ->
      exists st', remove_last_entry st = (Some e, st')
                  /\ get_all_entries st' = before) as Hpop.
  { intros before e Hes. unfold remove_last_entry. rewrite Hes.
    rewrite rev_app_distr. cbn [List.rev app]. rewrite rev_involutive.
    eexists. split; [done|].
    apply get_all_entries_concat_rows.
    pose proof (get_all_entries_canonical st) as Hc. rewrite Hes in Hc.
    by apply Forall_app in Hc as [? _]. }
  split_and!.
  - intros Hes. unfold remove_last_entry. by rewrite Hes.
  - exact Hpop.
  - intros calls c ->. apply Hpop.
    by rewrite get_all_entries_ledger_after, fmap_app.
Qed.

Lemma remove_last_entry_pops_witness :
  remove_last_entry None = (None, None)
  /\ remove_last_entry (Some "") = (None, Some "")
  /\ (exists st',
        remove_last_entry (ledger_after [AppendPass "/v/a.mp4"; AppendUncertain "/v/b.mp4"])
        = (Some ("/v/b.mp4", 2, None), st')
        /\ get_all_entries st' = [("/v/a.mp4", 1, None)])
  /\ (exists st',
        remove_last_entry (ledger_after ([AppendPass "/v/a.mp4"] ++ [AppendFail "/v/b.mp4" "/v/_failures/b_fail_0s-1s.mp4"]))
        = (Some ("/v/b.mp4", 0, Some "/v/_failures/b_fail_0s-1s.mp4"), st')
        /\ get_all_entries st' = [("/v/a.mp4", 1, None)]).
Proof.
  split_and!.
  - apply (proj1 (remove_last_entry_pops None)). reflexivity.
  - apply (proj1 (remove_last_entry_pops (Some ""))). reflexivity.
  - apply (proj1 (proj2 (remove_last_entry_pops _)) [("/v/a.mp4", 1, None)]).
    vm_compute. reflexivity.
  - exact (proj2 (proj2 (remove_last_entry_pops _)) [AppendPass "/v/a.mp4"]
             (AppendFail "/v/b.mp4" "/v/_failures/b_fail_0s-1s.mp4") eq_refl).
Defined.

End ledger_claims.

(** ** The segment selection *)
Section segment.
Import App.

(** The cases of [_confirm_segment] in segment mode. *)
Lemma confirm_segment_validation_core (E : ClipExtractor.env) (st : state) :
  segment_mode st = true ->
  (segment_start st = None \/ segment_end st = None ->
     _confirm_segment E st
     = Returned (emit st (MessageBox Warning "Incomplete Segment"
                            "Please set both start and end points.")))
  /\ (forall s e, segment_start st = Some s -> segment_end st = Some e ->
        Z.max s e - Z.min s e < 100 ->
        _confirm_segment E st
        = Returned (emit st (MessageBox Warning "Segment Too Short"
                               "The selected segment is too short.")))
  /\ (forall s e video root,
        segment_start st = Some s -> segment_end st = Some e ->
        100 <= Z.max s e - Z.min s e ->
        current_video st = Some video -> root_dir st = Some root ->
        _confirm_segment E st
        = match ClipExtractor.extract_failure_clip E (files st) video root
                  (Z.min s e) (Z.max s e) with
          | (inl ex, d) => Raised ex (set_files st d)
          | (inr (success, message, clip_path), d) =>
              after_extraction (set_files st d) success message clip_path
          end)
  /\ (segment_mode (state_of (_confirm_segment E st)) = false ->
        exists s e, segment_start st = Some s /\ segment_end st = Some e
                    /\ 100 <= Z.max s e - Z.min s e).
Proof.
  intros Hmode. unfold _confirm_segment. rewrite Hmode. cbn [negb].
  split_and!.
  - intros [-> | Hend]; [done|]. rewrite Hend. by destruct (segment_start st).
  - intros s e -> -> Hlt.
    by destruct (Z.ltb_spec (Z.max s e - Z.min s e) 100); [|lia].
  - intros s e video root -> -> Hge -> ->.
    by destruct (Z.ltb_spec (Z.max s e - Z.min s e) 100); [lia|].
  - destruct (segment_start st) as [s|], (segment_end st) as [e|];
      cbn [state_of emit segment_mode]; try congruence.
    destruct (Z.ltb_spec (Z.max s e - Z.min s e) 100);
      cbn [state_of emit segment_mode]; [congruence|]. eauto.
Qed.


(** C1.  In segment mode, [_confirm_segment] with the start or the end
    unset shows the warning about an incomplete segment and changes nothing
    else.  With both set, the range is from the smaller to the larger of
    the two marks, whichever was made first: a range shorter than 100 ms
    gets the warning about a short segment and nothing else changes; a
    range of 100 ms or more goes to [extract_failure_clip] with that range,
    and the handler ends as the extraction result decides.  Segment mode
    is left only from a state with both marks set, at least 100 ms apart. *)
Theorem confirm_segment_validation (E : ClipExtractor.env) (st : state) :
  segment_mode st = true ->
  (segment_start st = None \/ segment_end st = None ->
     _confirm_segment E st
     = Returned (emit st (MessageBox Warning "Incomplete Segment"
                            "Please set both start and end points.")))
  /\ (forall s e, segment_start st = Some s -> segment_end st = Some e ->
        Z.max s e - Z.min s e < 100 ->
        _confirm_segment E st
        = Returned (emit st (MessageBox Warning "Segment Too Short"
                               "The selected segment is too short.")))
  /\ (forall s e video root,
        segment_start st = Some s -> segment_end st = Some e ->
        100 <= Z.max s e - Z.min s e ->
        current_video st = Some video -> root_dir st = Some root ->
        _confirm_segment E st
        = match ClipExtractor.extract_failure_clip E (files st) video root
                  (Z.min s e) (Z.max s e) with
          | (inl ex, d) => Raised ex (set_files st d)
          | (inr (success, message, clip_path), d) =>
              after_extraction (set_files st d) success message clip_path
          end)
  /\ (segment_mode (state_of (_confirm_segment E st)) = false ->
        exists s e, segment_start st = Some s /\ segment_end st = Some e
                    /\ 100 <= Z.max s e - Z.min s e).
Proof. apply confirm_segment_validation_core. Qed.

End segment.

(** ** Paths *)
Section paths.
Import Path Names.

Lemma string_exists_app (p : ascii -> bool) (a b : string) :
  string_exists p (a +:+ b) = string_exists p a || string_exists p b.
Proof.
  induction a as [|c a IH]; [done|]. rewrite sapp_cons. simpl.
  by rewrite IH, orb_assoc.
Qed.

Lemma slash_free_app (a b : string) : slash_free (a +:+ b) <-> slash_free a /\ slash_free b.
Proof. unfold slash_free. rewrite string_exists_app. apply orb_false_iff. Qed.

Lemma split_slash_free (s : string) : slash_free s -> split sep s = [s].
Proof.
  unfold slash_free. induction s as [|c s IH]; [done|]. simpl.
  intros [Hc Hs]%orb_false_elim. rewrite Hc, IH by done. done.
Qed.

Lemma split_cons_sep (s : string) : split sep (String sep s) = "" :: split sep s.
Proof. reflexivity. Qed.

Lemma split_app_sep (a b : string) :
  slash_free a -> split sep (a +:+ String sep b) = a :: split sep b.
Proof.
  unfold slash_free. induction a as [|c a IH]; [done|].
  rewrite sapp_cons. simpl. intros [Hc Hs]%orb_false_elim. by rewrite Hc, IH.
Qed.

Lemma join_cons2 (s a b : string) (l : list string) :
  join s (a :: b :: l) = a +:+ s +:+ join s (b :: l).
Proof. reflexivity. Qed.

(** Splitting what [join] made of slash-free components. *)
Lemma split_join (ps : list string) :
  ps <> [] -> Forall slash_free ps -> split sep (join (String sep "") ps) = ps.
Proof.
  induction ps as [|a ps IH]; [done|]. intros _ Hps. inversion_clear Hps.
  destruct ps as [|b ps].
  - by apply split_slash_free.
  - rewrite join_cons2. change (String sep "" +:+ ?x) with (String sep x).
    rewrite split_app_sep by done. f_equal. by apply IH.
Qed.

Lemma filter_components (ps : list string) :
  Forall valid_name ps -> List.filter is_component ps = ps.
Proof.
  induction 1 as [|a ps [_ Ha] _ IH]; [done|]. simpl. by rewrite Ha, IH.
Qed.

Lemma filter_empty_component (ps : list string) :
  List.filter is_component ("" :: ps) = List.filter is_component ps.
Proof. reflexivity. Qed.

Lemma valid_names_slash_free (ps : list string) :
  Forall valid_name ps -> Forall slash_free ps.
Proof. intros H. eapply Forall_impl; [exact H|]. by intros ? [? _]. Qed.

Lemma of_str_name (nm : string) : valid_name nm -> of_str nm = mkPath "" [nm].
Proof.
  intros [Hs Hc]. unfold of_str. rewrite split_slash_free by done.
  simpl. rewrite Hc. f_equal.
  destruct nm as [|c nm]; [done|]. unfold slash_free in Hs. simpl in Hs.
  apply orb_false_elim in Hs as [Hs _]. rewrite Ascii.eqb_sym in Hs.
  unfold sep in Hs. unfold splitroot. cbn [starts_with]. by rewrite Hs.
Qed.

Lemma joinpath_name (p : PurePath) (nm : string) :
  valid_name nm -> joinpath p nm = mkPath (root p) (parts p ++ [nm]).
Proof. intros Hnm. unfold joinpath. by rewrite of_str_name. Qed.

Lemma name_joinpath (p : PurePath) (nm : string) :
  valid_name nm -> name (joinpath p nm) = nm.
Proof. intros Hnm. rewrite joinpath_name by done. unfold name. simpl. apply last_last. Qed.

Lemma join_snoc (ps : list string) (nm : string) :
  ps <> [] ->
  join (String sep "") (ps ++ [nm]) = join (String sep "") ps +:+ String sep nm.
Proof.
  induction ps as [|a ps IH]; [done|]. intros _. destruct ps as [|b ps]; [done|].
  specialize (IH ltac:(done)). simpl app in *.
  by rewrite !join_cons2, IH, !sapp_assoc.
Qed.

(** [str(p / name)] below a directory that is not a bare root. *)
Lemma to_str_joinpath (p : PurePath) (nm : string) :
  valid_name nm -> parts p <> [] ->
  to_str (joinpath p nm) = to_str p +:+ String sep nm.
Proof.
  intros Hnm Hp. rewrite joinpath_name by done. unfold to_str. cbn [root parts].
  destruct (parts p) as [|a ps]; [done|].
  change (root p +:+ join (String sep "") ((a :: ps) ++ [nm])
          = (root p +:+ join (String sep "") (a :: ps)) +:+ String sep nm).
  by rewrite join_snoc, sapp_assoc.
Qed.

Lemma wf_of_str (s : string) : wf_path (of_str s).
Proof.
  split.
  - unfold of_str, splitroot. cbn [root].
destruct (starts_with "///" s); [auto|].
destruct (starts_with "//" s); [auto|].
destruct (starts_with "/" s); auto.
  - unfold of_str. simpl. apply List.Forall_forall. intros c [Hin Hc]%filter_In.
    split; [|done]. revert c Hin Hc. induction s as [|x s IH]; intros c Hin Hc.
    + simpl in Hin. destruct Hin as [<-|[]]. done.
    + simpl in Hin. destruct (Ascii.eqb x sep) eqn:Hx.
      * destruct Hin as [<-|Hin]; [done|]. by apply IH.
      * destruct (split sep s) as [|w ws] eqn:Hsp.
        -- destruct Hin as [<-|[]]. unfold slash_free. simpl. by rewrite Hx.
        -- destruct Hin as [<-|Hin].
           ++ unfold slash_free. simpl. rewrite Hx. simpl.
              destruct (String.eqb w "" || String.eqb w ".") eqn:Hw.
              ** apply orb_true_iff in Hw as [Hw|Hw]; apply String.eqb_eq in Hw as ->; done.
              ** apply (IH w); [by left|]. unfold is_component. by rewrite Hw.
           ++ apply IH; [by right|done].
Qed.

Lemma wf_joinpath (p : PurePath) (s : string) : wf_path p -> wf_path (joinpath p s).
Proof.
  intros [Hr Hp]. unfold joinpath. pose proof (wf_of_str s) as [Hr' Hp'].
  destruct (root (of_str s)) eqn:E; [|split; [by rewrite E|done]].
  split; [done|]. simpl. by apply Forall_app.
Qed.

Lemma valid_name_head (nm : string) :
  valid_name nm -> exists c rest, nm = String c rest /\ Ascii.eqb c sep = false.
Proof.
  intros [Hs Hc]. destruct nm as [|c rest]; [done|]. exists c, rest. split; [done|].
  unfold slash_free in Hs. simpl in Hs. by apply orb_false_elim in Hs as [? _].
Qed.

Lemma to_str_truthy (p : PurePath) : wf_path p -> truthy (to_str p) = true.
Proof.
  intros [Hr Hp]. unfold to_str. destruct (parts p) as [|a ps].
  - by destruct Hr as [->|[->| ->]].
  - inversion_clear Hp as [|?? Ha _].
    destruct (valid_name_head a Ha) as (c & rest & -> & _).
    destruct Hr as [->|[->| ->]]; by destruct ps.
Qed.

(** Parsing what [str] rendered gives the path back. *)
Lemma of_str_to_str (p : PurePath) : wf_path p -> of_str (to_str p) = p.
Proof.
  destruct p as [r ps]. intros [Hr Hp]. simpl in Hr, Hp.
  pose proof (valid_names_slash_free ps Hp) as Hsf.
  unfold to_str. cbn [root parts]. destruct ps as [|a ps].
  - by destruct Hr as [->|[->| ->]].
  - change (of_str (r +:+ join (String sep "") (a :: ps)) = mkPath r (a :: ps)).
    set (body := join (String sep "") (a :: ps)).
    assert (split sep body = a :: ps) as Hsplit by (by apply split_join).
    assert (exists c rest, body = String c rest /\ Ascii.eqb c sep = false) as (c & rest & Hb & Hc).
    { inversion_clear Hp as [|?? Ha _].
      destruct (valid_name_head a Ha) as (c & rest & -> & Hc).
      subst body. destruct ps; simpl; eauto. }
    unfold of_str. f_equal.
    + rewrite Hb. unfold splitroot.
      rewrite Ascii.eqb_sym in Hc. unfold sep in Hc.
      destruct Hr as [->|[->| ->]]; rewrite ?sapp_cons, ?sapp_nil_l;
        cbn [starts_with]; rewrite ?Ascii.eqb_refl, ?Hc; reflexivity.
    + destruct Hr as [->|[->| ->]].
      * rewrite sapp_nil_l, Hsplit. by apply filter_components.
      * change ("/" +:+ body) with (String sep body).
        rewrite split_cons_sep, Hsplit, filter_empty_component.
        by apply filter_components.
      * change ("//" +:+ body) with (String sep (String sep body)).
        rewrite !split_cons_sep, Hsplit, !filter_empty_component.
        by apply filter_components.
Qed.

End paths.

(** ** The clip extractor *)
Section extractor.
Import Path Names ClipExtractor.

Lemma length_app (a b : string) :
  String.length (a +:+ b) = (String.length a + String.length b)%nat.
Proof. induction a as [|c a IH]; [done|]. rewrite sapp_cons. simpl. by rewrite IH. Qed.

(** Cancellation on the right. *)
Lemma sapp_inv_tail (a b c : string) : a +:+ c = b +:+ c -> a = b.
Proof.
  revert b. induction a as [|x a IH]; intros [|y b] H.
  - done.
  - apply (f_equal String.length) in H. rewrite sapp_nil_l, length_app in H.
    simpl in H. lia.
  - apply (f_equal String.length) in H. rewrite sapp_nil_l, length_app in H.
    simpl in H. lia.
  - rewrite !sapp_cons in H. injection H as -> H. f_equal. by apply IH.
Qed.

Lemma str_inj (a b : Z) : PyInt.str a = PyInt.str b -> a = b.
Proof.
  intros H. pose proof (int_str a) as Ha. rewrite H, int_str in Ha. congruence.
Qed.

Lemma str_slash_free (z : Z) : slash_free (PyInt.str z).
Proof.
  assert (forall n, slash_free (PyInt.str_N n)) as HN.
  { intros n. unfold slash_free, PyInt.str_N. rewrite digits_exists; [done|].
    intros d Hd.
    destruct (digit_cases d Hd) as [->|[->|[->|[->|[->|[->|[->|[->|[->| ->]]]]]]]]]; done. }
  unfold PyInt.str. destruct (z <? 0); [|apply HN].
  unfold slash_free. simpl. apply HN.
Qed.

Lemma str_truthy (z : Z) : truthy (PyInt.str z) = true.
Proof.
  unfold PyInt.str. destruct (z <? 0); [done|]. unfold PyInt.str_N.
  by destruct (digits_head (N.to_nat (N.size (Z.to_N z))) (Z.to_N z) "") as (d & rest & _ & ->).
Qed.

Lemma take_slash_free (n : nat) (s : string) : slash_free s -> slash_free (take n s).
Proof.
  unfold slash_free. revert s. induction n as [|n IH]; intros [|c s]; try done.
  simpl. intros [Hc Hs]%orb_false_elim. by rewrite Hc, IH.
Qed.

Lemma drop_slash_free (n : nat) (s : string) : slash_free s -> slash_free (drop n s).
Proof.
  unfold slash_free. revert s. induction n as [|n IH]; intros [|c s]; try done.
  simpl. intros [Hc Hs]%orb_false_elim. by apply IH.
Qed.

Lemma name_slash_free (p : PurePath) : wf_path p -> slash_free (name p).
Proof.
  intros [_ Hp]. unfold name. destruct (parts p) as [|a ps] using rev_ind; [done|].
  rewrite last_last. apply Forall_app in Hp as [_ Hp]. by inversion_clear Hp as [|?? [? _] _].
Qed.

Lemma stem_slash_free (p : PurePath) : wf_path p -> slash_free (stem p).
Proof.
  intros Hp. unfold stem, name_stem. pose proof (name_slash_free p Hp).
  destruct (suffix_index (name p)); [by apply take_slash_free|done].
Qed.

Lemma suffix_slash_free (p : PurePath) : wf_path p -> slash_free (suffix p).
Proof.
  intros Hp. unfold suffix, name_suffix. pose proof (name_slash_free p Hp).
  destruct (suffix_index (name p)); [by apply drop_slash_free|done].
Qed.

Lemma is_component_long (s : string) :
  (2 <= String.length s)%nat -> is_component s = true.
Proof.
  destruct s as [|a [|b s]]; simpl; try lia. intros _.
  unfold is_component. cbn. by destruct (Ascii.eqb a ".").
Qed.

(** The candidate names of the collision loop are names. *)
Lemma candidate_valid (base ext : string) (k : Z) :
  slash_free base -> slash_free ext ->
  valid_name (base +:+ "_" +:+ PyInt.str k +:+ ext).
Proof.
  intros Hb He. split.
  - rewrite !slash_free_app. split_and!; try done. apply str_slash_free.
  - apply is_component_long. rewrite !length_app.
    pose proof (str_truthy k) as Hk. destruct (PyInt.str k); [done|]. simpl. lia.
Qed.

Lemma candidate_inj (prefix base ext : string) (j k : Z) :
  prefix +:+ base +:+ "_" +:+ PyInt.str j +:+ ext
  = prefix +:+ base +:+ "_" +:+ PyInt.str k +:+ ext -> j = k.
Proof.
  intros H. do 3 apply String.app_inj in H.
  apply sapp_inv_tail in H. by apply str_inj.
Qed.

Lemma exists_to_str (d : disk) (p : PurePath) :
  wf_path p -> parts p <> [] ->
  exists_ d (to_str p) = bool_decide (is_Some (d !! to_str p)).
Proof.
  intros Hp Hne. unfold exists_, lookup_path. rewrite of_str_to_str by done.
  by destruct (parts p).
Qed.

End extractor.

(** ** The search for a free clip name *)
Section free_names.
Import Path Names ClipExtractor.

Context (d : disk) (fd : PurePath) (base ext : string).
Context (Hfd : wf_path fd) (Hparts : parts fd <> []).
Context (Hbase : slash_free base) (Hext : slash_free ext).

Let candidate (k : Z) : string :=
  to_str (joinpath fd (base +:+ "_" +:+ PyInt.str k +:+ ext)).

Lemma candidate_str (k : Z) :
  candidate k = to_str fd +:+ String sep (base +:+ "_" +:+ PyInt.str k +:+ ext).
Proof. unfold candidate. rewrite to_str_joinpath; auto using candidate_valid. Qed.

Lemma candidate_injective : Inj (=) (=) candidate.
Proof.
  intros j k. rewrite !candidate_str. intros H.
  apply String.app_inj in H. injection H as H.
  apply (candidate_inj "" base ext). by rewrite !sapp_nil_l.
Qed.

Lemma wf_candidate_path (nm : string) : valid_name nm -> 
  wf_path (joinpath fd nm) /\ parts (joinpath fd nm) <> [].
Proof.
  intros Hnm. split; [by apply wf_joinpath|].
  rewrite joinpath_name by done. simpl. by destruct (parts fd).
Qed.

Lemma exists_candidate (k : Z) :
  exists_ d (candidate k) = bool_decide (is_Some (d !! candidate k)).
Proof.
  unfold candidate.
  destruct (wf_candidate_path (base +:+ "_" +:+ PyInt.str k +:+ ext)) as [? ?];
    auto using candidate_valid, exists_to_str.
Qed.

Lemma free_name_free (fuel : nat) : forall counter p q,
  free_name fuel d fd base ext counter p = Some q -> exists_ d q = false.
Proof.
  induction fuel as [|fuel IH]; intros counter p q; simpl;
    destruct (exists_ d p) eqn:Hp; intros H; simplify_eq; eauto.
Qed.

Lemma free_name_none (fuel : nat) : forall counter p,
  free_name fuel d fd base ext counter p = None ->
  exists_ d p = true
  /\ forall k, counter <= k < counter + Z.of_nat fuel -> exists_ d (candidate k) = true.
Proof.
  induction fuel as [|fuel IH]; intros counter p; simpl;
    destruct (exists_ d p) eqn:Hp; intros H; simplify_eq.
  - split; [done|]. intros k Hk. lia.
  - apply IH in H as [H1 H2]. split; [done|]. intros k Hk.
    destruct (decide (k = counter)) as [->|Hne]; [done|].
    apply H2. lia.
Qed.

(** More candidates than there are paths on disk cannot all exist. *)
Lemma candidates_run_out :
  ~ (forall k, 1 <= k < 1 + Z.of_nat (S (size d)) -> exists_ d (candidate k) = true).
Proof.
  intros Hall.
  set (l := candidate <$> seqZ 1 (Z.of_nat (S (size d)))).
  assert (NoDup l) as Hnd.
  { pose proof candidate_injective as Hinj.
    apply (NoDup_fmap_2 candidate), NoDup_seqZ. }
  assert (list_to_set (C:=gset string) l ⊆ dom d) as Hsub.
  { intros q [k [-> Hk%elem_of_seqZ]]%elem_of_list_to_set%list_elem_of_fmap.
    apply elem_of_dom. specialize (Hall k ltac:(lia)).
    rewrite exists_candidate in Hall. by apply bool_decide_eq_true in Hall. }
  apply subseteq_size in Hsub.
  rewrite size_list_to_set, size_dom in Hsub by done.
  unfold l in Hsub. rewrite length_fmap, length_seqZ in Hsub. lia.
Qed.

Lemma free_name_total (p : string) :
  exists q, free_name (S (size d)) d fd base ext 1 p = Some q /\ exists_ d q = false.
Proof.
  destruct (free_name (S (size d)) d fd base ext 1 p) as [q|] eqn:H.
  - eauto using free_name_free.
  - apply free_name_none in H as [_ H]. by destruct candidates_run_out.
Qed.

(** When the first name is free it is taken. *)
Lemma free_name_first (fuel : nat) (counter : Z) (p : string) :
  exists_ d p = false -> free_name fuel d fd base ext counter p = Some p.
Proof. intros H. destruct fuel; simpl; by rewrite H. Qed.

(** When the first name is taken and the first candidate is free, the
    candidate is taken. *)
Lemma free_name_second (fuel : nat) (counter : Z) (p : string) :
  exists_ d p = true -> exists_ d (candidate counter) = false ->
  free_name (S fuel) d fd base ext counter p = Some (candidate counter).
Proof. intros H1 H2. cbn [free_name]. rewrite H1. by apply free_name_first. Qed.

End free_names.

(** ** Creating the output directory *)
Section mkdir.
Import Path Names ClipExtractor.

Lemma to_str_cons (r a : string) (ps : list string) :
  to_str (mkPath r (a :: ps)) = r +:+ join (String sep "") (a :: ps).
Proof. reflexivity. Qed.

Lemma join_app (s : string) (pre rest : list string) :
  pre <> [] -> rest <> [] ->
  join s (pre ++ rest) = join s pre +:+ s +:+ join s rest.
Proof.
  induction pre as [|a pre IH]; [done|]. intros _ Hrest.
  destruct pre as [|b pre].
  - destruct rest; done.
  - specialize (IH ltac:(done) Hrest). simpl app in *.
    by rewrite !join_cons2, IH, !sapp_assoc.
Qed.

Lemma join_head_length (s a : string) (ps : list string) :
  (String.length a <= String.length (join s (a :: ps)))%nat.
Proof. destruct ps; [done|]. rewrite join_cons2, length_app. lia. Qed.

(** The text of a path is at least as long as the text of a path above it. *)
Lemma to_str_prefix_length (r : string) (pre rest : list string) :
  Forall valid_name (pre ++ rest) -> pre ++ rest <> [] ->
  (String.length (to_str (mkPath r pre))
   <= String.length (to_str (mkPath r (pre ++ rest))))%nat.
Proof.
  intros Hv Hne. destruct pre as [|a pre].
  - destruct rest as [|b rest]; [done|]. simpl app. rewrite to_str_cons, length_app.
    inversion_clear Hv as [|?? Hb _].
    destruct (valid_name_head b Hb) as (c & t & -> & _).
    pose proof (join_head_length (String sep "") (String c t) rest) as Hl.
    cbn [String.length] in Hl. destruct r as [|x r].
    + change (to_str (mkPath "" [])) with ".". cbn [String.length]. lia.
    + change (to_str (mkPath (String x r) [])) with (String x r +:+ "").
      rewrite sapp_nil_r. lia.
  - destruct rest as [|b rest]; [by rewrite app_nil_r|].
    change ((a :: pre) ++ b :: rest) with (a :: (pre ++ b :: rest)).
    rewrite !to_str_cons. change (a :: (pre ++ b :: rest)) with ((a :: pre) ++ b :: rest).
    rewrite join_app by done. rewrite !length_app. lia.
Qed.

Lemma os_mkdir_inr (d d' : disk) (p : PurePath) :
  os_mkdir d p = inr d' ->
  lookup_path d p = None /\ d' = <[to_str p := IsDir]> d.
Proof.
  unfold os_mkdir. destruct (lookup_path d p); [done|].
  destruct (lookup_path d (parent p)) as [[]|]; intros H; by simplify_eq.
Qed.

Lemma os_mkdir_is_dir (d d' : disk) (p : PurePath) :
  os_mkdir d p = inr d' -> is_dir d' p = true.
Proof.
  intros [_ ->]%os_mkdir_inr. unfold is_dir, lookup_path.
  destruct (parts p); [done|]. by rewrite lookup_insert_eq.
Qed.

(** After [mkdir] has succeeded the directory exists. *)
Lemma mkdir_parents_is_dir (r : string) (rparts : list string) (d d1 : disk) :
  mkdir_parents r rparts d = inr d1 -> is_dir d1 (mkPath r (List.rev rparts)) = true.
Proof.
  destruct rparts as [|a up]; cbn [mkdir_parents];
    destruct (os_mkdir d _) as [[]|d'] eqn:H1; intros H; simplify_eq;
    eauto using os_mkdir_is_dir;
    try (by destruct (is_dir d _) eqn:Hd; simplify_eq).
  destruct (mkdir_parents r up d) as [e|d2]; [done|].
  destruct (os_mkdir d2 _) as [e|d3] eqn:H2; simplify_eq; eauto using os_mkdir_is_dir.
  by destruct (is_dir d2 _) eqn:Hd; simplify_eq.
Qed.

(** [mkdir] of a directory that exists changes nothing. *)
Lemma mkdir_parents_existing (r : string) (rparts : list string) (d : disk) :
  is_dir d (mkPath r (List.rev rparts)) = true -> mkdir_parents r rparts d = inr d.
Proof.
  intros Hd. assert (exists m, os_mkdir d (mkPath r (List.rev rparts)) = inl (FileExistsError m))
    as [m Hm].
  { unfold os_mkdir. unfold is_dir in Hd. destruct (lookup_path d _); [eauto|done]. }
  destruct rparts; cbn [mkdir_parents]; by rewrite Hm, Hd.
Qed.

(** [mkdir] adds nothing but the directory and directories above it. *)
Lemma mkdir_parents_keys (r : string) (rparts : list string) : forall (d d1 : disk) (q : string),
  mkdir_parents r rparts d = inr d1 -> d1 !! q <> d !! q ->
  exists k up, rparts = k ++ up /\ q = to_str (mkPath r (List.rev up)).
Proof.
  assert (forall (d d' : disk) p q, os_mkdir d p = inr d' -> d' !! q <> d !! q -> q = to_str p)
    as Hos.
  { intros d d' p q [_ ->]%os_mkdir_inr Hq.
    destruct (decide (to_str p = q)) as [|Hne]; [done|]. by rewrite lookup_insert_ne in Hq. }
  induction rparts as [|a up IH]; intros d d1 q; cbn [mkdir_parents];
    destruct (os_mkdir d _) as [[]|d'] eqn:H1; intros H Hq; simplify_eq;
    try (by destruct (is_dir d _) eqn:Hd; simplify_eq);
    try (by exists [], []; split; [done|]; eapply Hos).
  - destruct (mkdir_parents r up d) as [e|d2] eqn:H2; [done|].
    destruct (decide (d2 !! q = d !! q)) as [Heq|Hne].
    + exists [], (a :: up). split; [done|].
      destruct (os_mkdir d2 _) as [e|d3] eqn:H3; simplify_eq.
      * by destruct (is_dir d2 _); simplify_eq.
      * eapply Hos; [done|]. congruence.
    + destruct (IH d d2 q H2 Hne) as (k & up' & -> & ->).
      by exists (a :: k), up'.
  - exists [], (a :: up). split; [done|]. by eapply Hos.
Qed.

(** What is directly below the directory is as it was before [mkdir]. *)
Lemma mkdir_keeps_below (fd : PurePath) (d d1 : disk) (nm : string) :
  wf_path fd -> parts fd <> [] ->
  mkdir fd d = inr d1 ->
  d1 !! (to_str fd +:+ String sep nm) = d !! (to_str fd +:+ String sep nm).
Proof.
  intros [_ Hv] Hne H. unfold mkdir in H.
  destruct (decide (d1 !! (to_str fd +:+ String sep nm) = d !! (to_str fd +:+ String sep nm)))
    as [|Hq]; [done|].
  destruct (mkdir_parents_keys _ _ _ _ _ H Hq) as (k & up & Hk & Heq).
  apply (f_equal (@List.rev string)) in Hk. rewrite rev_involutive, rev_app_distr in Hk.
  apply (f_equal String.length) in Heq. rewrite length_app in Heq. simpl in Heq.
  pose proof (to_str_prefix_length (root fd) (List.rev up) (List.rev k)) as Hl.
  rewrite <- Hk in Hl. specialize (Hl Hv Hne).
  destruct fd as [r ps]. simpl in *. lia.
Qed.

End mkdir.

(** ** Stems and suffixes *)
Section suffixes.
Import Path Names.

Lemma take_app (x y : string) : take (String.length x) (x +:+ y) = x.
Proof. induction x as [|c x IH]; [by destruct y|]. rewrite sapp_cons. simpl. by rewrite IH. Qed.

Lemma drop_app (x y : string) : drop (String.length x) (x +:+ y) = y.
Proof. induction x as [|c x IH]; [by destruct y|]. by rewrite sapp_cons. Qed.

Lemma rfind_app (c : ascii) (x e : string) :
  rfind c e = None -> rfind c (x +:+ String c e) = Some (String.length x).
Proof.
  intros He. induction x as [|a x IH].
  - rewrite sapp_nil_l. simpl. by rewrite He, Ascii.eqb_refl.
  - rewrite sapp_cons. simpl. by rewrite IH.
Qed.

Lemma rfind_split (c : ascii) (s : string) (i : nat) :
  rfind c s = Some i ->
  exists x e, s = x +:+ String c e /\ String.length x = i /\ rfind c e = None.
Proof.
  revert i. induction s as [|a s IH]; intros i; [done|]. simpl.
  destruct (rfind c s) as [j|] eqn:Hs.
  - intros [= <-]. destruct (IH j eq_refl) as (x & e & -> & <- & He).
    by exists (String a x), e.
  - destruct (Ascii.eqb_spec a c) as [->|]; [|done]. intros [= <-].
    by exists "", s.
Qed.

(** A name that ends in a dot and an extension. *)
Lemma suffix_index_app (x e : string) :
  x <> "" -> e <> "" -> rfind "." e = None ->
  suffix_index (x +:+ String "." e) = Some (String.length x).
Proof.
  intros Hx He Hd. unfold suffix_index. rewrite rfind_app by done.
  rewrite length_app. simpl.
  destruct x; [done|]. destruct e; [done|]. simpl.
  replace (_ <? _)%nat with true; [done|]. symmetry. apply Nat.ltb_lt. lia.
Qed.

Lemma stem_suffix_app (x e : string) :
  x <> "" -> e <> "" -> rfind "." e = None ->
  name_stem (x +:+ String "." e) = x /\ name_suffix (x +:+ String "." e) = String "." e.
Proof.
  intros Hx He Hd. unfold name_stem, name_suffix.
  rewrite suffix_index_app by done. by rewrite take_app, drop_app.
Qed.

(** A name with a suffix is a stem, a dot and an extension without dot. *)
Lemma suffix_proper (nm : string) :
  name_suffix nm <> "" ->
  exists e, e <> "" /\ rfind "." e = None
            /\ name_suffix nm = String "." e /\ nm = name_stem nm +:+ String "." e.
Proof.
  unfold name_suffix, name_stem, suffix_index.
  destruct (rfind "." nm) as [i|] eqn:Hr; [|done].
  destruct (rfind_split _ _ _ Hr) as (x & e & -> & <- & He).
  destruct (0 <? String.length x)%nat eqn:H0; [|done]. cbn [andb].
  destruct (String.length x <? _)%nat eqn:H1; [|done]. intros _.
  rewrite take_app, drop_app. exists e. split_and!; try done.
  intros ->. apply Nat.ltb_lt in H1. rewrite length_app in H1. simpl in H1. lia.
Qed.

(** The stem and the suffix of a name make up the name. *)
Lemma stem_suffix (nm : string) : name_stem nm +:+ name_suffix nm = nm.
Proof.
  unfold name_stem, name_suffix. destruct (suffix_index nm) as [i|]; [|apply sapp_nil_r].
  revert nm. induction i as [|i IH]; intros [|c nm]; try done.
  simpl. rewrite sapp_cons. by rewrite IH.
Qed.

End suffixes.

(** ** Extraction into the failures directory *)
Section extraction.
Import Path Names ClipExtractor Clips.

Lemma valid_failures_dir : valid_name FAILURES_DIR.
Proof. by split. Qed.

Lemma failures_path_wf (root : string) :
  wf_path (failures_path root) /\ parts (failures_path root) <> [].
Proof.
  unfold failures_path. split; [apply wf_joinpath, wf_of_str|].
  rewrite joinpath_name by apply valid_failures_dir. simpl.
  by destruct (List.filter _ _).
Qed.

Lemma get_failures_dir_inr (root : string) (d d1 : disk) (fd : PurePath) :
  get_failures_dir root d = inr (fd, d1) ->
  fd = failures_path root /\ mkdir fd d = inr d1.
Proof.
  unfold get_failures_dir. fold (failures_path root).
  destruct (mkdir (failures_path root) d) eqn:H; intros ?; by simplify_eq.
Qed.

Lemma clip_filename_valid (src : string) (s e : Z) :
  valid_name (generate_clip_filename src s e).
Proof.
  unfold generate_clip_filename. split.
  - rewrite !slash_free_app.
    split_and!;
      auto using stem_slash_free, suffix_slash_free, str_slash_free, wf_of_str;
      done.
  - apply is_component_long. rewrite !length_app. simpl. lia.
Qed.

Lemma clip_path_str (root nm : string) :
  valid_name nm -> clip_path root nm = to_str (failures_path root) +:+ String sep nm.
Proof.
  intros Hnm. destruct (failures_path_wf root). by apply to_str_joinpath.
Qed.

Lemma clip_path_inj (root a b : string) :
  valid_name a -> valid_name b -> clip_path root a = clip_path root b -> a = b.
Proof.
  intros Ha Hb. rewrite !clip_path_str by done. intros H.
  apply String.app_inj in H. by injection H.
Qed.

Lemma clip_path_wf (root nm : string) :
  valid_name nm ->
  wf_path (joinpath (failures_path root) nm) /\ parts (joinpath (failures_path root) nm) <> [].
Proof. destruct (failures_path_wf root). by apply wf_candidate_path. Qed.

Lemma exists_clip_path (d : disk) (root nm : string) :
  valid_name nm ->
  exists_ d (clip_path root nm) = bool_decide (is_Some (d !! clip_path root nm)).
Proof. intros Hnm. destruct (clip_path_wf root nm Hnm). by apply exists_to_str. Qed.

Lemma clip_path_truthy (root nm : string) : valid_name nm -> truthy (clip_path root nm) = true.
Proof. intros Hnm. destruct (clip_path_wf root nm Hnm). by apply to_str_truthy. Qed.

Lemma parent_clip_path (root nm : string) :
  valid_name nm -> parent (of_str (clip_path root nm)) = failures_path root.
Proof.
  intros Hnm. destruct (clip_path_wf root nm Hnm) as [Hwf _].
  unfold clip_path. rewrite of_str_to_str by done.
  rewrite joinpath_name by done. unfold parent. cbn [Path.root Path.parts].
  rewrite removelast_last. by destruct (failures_path root).
Qed.

Lemma name_clip_path (root nm : string) :
  valid_name nm -> name (of_str (clip_path root nm)) = nm.
Proof.
  intros Hnm. destruct (clip_path_wf root nm Hnm) as [Hwf _].
  unfold clip_path. rewrite of_str_to_str by done. by apply name_joinpath.
Qed.

Lemma mkdir_existing (p : PurePath) (d : disk) : is_dir d p = true -> mkdir p d = inr d.
Proof.
  intros H. unfold mkdir. apply mkdir_parents_existing.
  rewrite rev_involutive. by destruct p.
Qed.

Lemma mkdir_is_dir (p : PurePath) (d d1 : disk) : mkdir p d = inr d1 -> is_dir d1 p = true.
Proof.
  unfold mkdir. intros H%mkdir_parents_is_dir.
  rewrite rev_involutive in H. by destruct p.
Qed.

(** Inside the failures directory [extract_clip] raises nothing: it
    returns a result, and the clip exists when the result is a success. *)
Lemma extract_clip_in_dir (E : env) (d : disk) (root nm src : string) (s e : Z) :
  valid_name nm -> is_dir d (failures_path root) = true ->
  exists (b : bool) (m : string), extract_clip E d src (clip_path root nm) s e
              = (inr (b, m), if b then written (clip_path root nm) d else d).
Proof.
  intros Hnm Hdir. unfold extract_clip.
  destruct (check_ffmpeg_available E); cbn [negb];
    [|exists false; eexists; reflexivity].
  rewrite parent_clip_path, mkdir_existing by done.
  destruct (run E (cmd_copy _ _ _ _) 60) as [rc err| |ex];
    [|exists false; eexists; reflexivity..].
  destruct (rc =? 0); [exists true; eexists; reflexivity|].
  destruct (run E (cmd_reencode _ _ _ _) 120) as [rc2 err2| |ex];
    [|exists false; eexists; reflexivity..].
  destruct (rc2 =? 0); [exists true|exists false]; eexists; reflexivity.
Qed.

Lemma free_name_form (d : disk) (fd : PurePath) (base ext : string) (fuel : nat) :
  forall counter p q,
  free_name fuel d fd base ext counter p = Some q ->
  q = p \/ exists k, q = to_str (joinpath fd (base +:+ "_" +:+ PyInt.str k +:+ ext)).
Proof.
  induction fuel as [|fuel IH]; intros counter p q; simpl;
    destruct (exists_ d p); intros H; simplify_eq; auto.
  apply IH in H as [->|H]; eauto.
Qed.

(** The search for a name as [extract_failure_clip] runs it. *)
Lemma unique_output_path_free_name (d : disk) (root fn : string) :
  valid_name fn ->
  unique_output_path d (failures_path root) fn
  = free_name (S (size d)) d (failures_path root) (name_stem fn) (name_suffix fn) 1
      (clip_path root fn).
Proof.
  intros Hfn. unfold unique_output_path, stem, suffix.
  fold (clip_path root fn). by rewrite name_clip_path.
Qed.

Lemma name_stem_slash_free (nm : string) : slash_free nm -> slash_free (name_stem nm).
Proof. intros H. unfold name_stem. destruct (suffix_index nm); [by apply take_slash_free|done]. Qed.

Lemma name_suffix_slash_free (nm : string) : slash_free nm -> slash_free (name_suffix nm).
Proof. intros H. unfold name_suffix. destruct (suffix_index nm); [by apply drop_slash_free|done]. Qed.

(** The search ends, on a path of the failures directory where nothing
    exists. *)
Lemma unique_output_path_total (d : disk) (root fn : string) :
  valid_name fn ->
  exists nm, valid_name nm
    /\ unique_output_path d (failures_path root) fn = Some (clip_path root nm)
    /\ exists_ d (clip_path root nm) = false.
Proof.
  intros Hfn. rewrite unique_output_path_free_name by done.
  destruct (failures_path_wf root) as [Hwf Hne]. pose proof Hfn as [Hsf _].
  destruct (free_name_total d (failures_path root) (name_stem fn) (name_suffix fn)
              Hwf Hne (name_stem_slash_free fn Hsf) (name_suffix_slash_free fn Hsf)
              (clip_path root fn)) as (q & Hq & Hfree).
  rewrite Hq. destruct (free_name_form _ _ _ _ _ _ _ _ Hq) as [->|[k ->]].
  - by exists fn.
  - exists (name_stem fn +:+ "_" +:+ PyInt.str k +:+ name_suffix fn).
    split; [|done].
    apply candidate_valid; auto using name_stem_slash_free, name_suffix_slash_free.
Qed.

(** [extract_failure_clip]: an exception escapes when the failures
    directory cannot be made, and only then; otherwise the result is a
    failure, or a success with a clip written where nothing existed. *)
Lemma extract_failure_clip_result (E : env) (d : disk) (src root : string) (s e : Z) :
  match get_failures_dir root d with
  | inl ex => extract_failure_clip E d src root s e = (inl ex, d)
  | inr (fd, d1) =>
      exists (nm : string) (b : bool) (m : string),
        valid_name nm
        /\ unique_output_path d1 fd (generate_clip_filename src s e)
           = Some (clip_path root nm)
        /\ exists_ d1 (clip_path root nm) = false
        /\ extract_failure_clip E d src root s e
           = (inr (b, m, if b then Some (clip_path root nm) else None),
              if b then written (clip_path root nm) d1 else d1)
  end.
Proof.
  unfold extract_failure_clip.
  destruct (get_failures_dir root d) as [ex|[fd d1]] eqn:Hfd; [done|].
  apply get_failures_dir_inr in Hfd as [-> Hmk].
  destruct (unique_output_path_total d1 root (generate_clip_filename src s e)
              (clip_filename_valid src s e)) as (nm & Hnm & Hu & Hfree).
  rewrite Hu.
  destruct (extract_clip_in_dir E d1 root nm src s e Hnm (mkdir_is_dir _ _ _ Hmk))
    as (b & m & Hx).
  rewrite Hx. exists nm, b, m. by destruct b.
Qed.

(** A clip name of the failures directory exists after [mkdir] if and only
    if it existed before. *)
Lemma exists_after_mkdir (d d1 : disk) (root nm : string) :
  valid_name nm -> mkdir (failures_path root) d = inr d1 ->
  exists_ d1 (clip_path root nm) = exists_ d (clip_path root nm).
Proof.
  intros Hnm Hmk. rewrite !exists_clip_path by done.
  destruct (failures_path_wf root) as [Hwf Hne].
  rewrite clip_path_str by done. by rewrite (mkdir_keeps_below _ d d1).
Qed.

Lemma exists_written (d : disk) (root nm nm' : string) :
  valid_name nm -> valid_name nm' ->
  exists_ (written (clip_path root nm) d) (clip_path root nm')
  = bool_decide (nm = nm') || exists_ d (clip_path root nm').
Proof.
  intros Hnm Hnm'. rewrite !exists_clip_path by done. unfold written.
  destruct (decide (nm = nm')) as [->|Hne].
  - rewrite lookup_insert_eq, bool_decide_true by done.
    by rewrite bool_decide_true by eauto.
  - rewrite lookup_insert_ne; [by rewrite (bool_decide_false (nm = nm'))|].
    intros H. by apply clip_path_inj in H.
Qed.

Lemma is_dir_written (d : disk) (root nm : string) :
  valid_name nm -> is_dir d (failures_path root) = true ->
  is_dir (written (clip_path root nm) d) (failures_path root) = true.
Proof.
  intros Hnm. unfold is_dir, lookup_path, written.
  destruct (failures_path_wf root) as [Hwf Hne].
  destruct (parts (failures_path root)) eqn:E; [done|]. rewrite <- E in *.
  rewrite lookup_insert_ne; [done|]. rewrite clip_path_str by done.
  intros H. apply (f_equal String.length) in H. rewrite length_app in H. simpl in H. lia.
Qed.

End extraction.

(** ** The claims about the clip extractor *)
Section extractor_claims.
Import Path Names ClipExtractor Clips.

Lemma extract_failure_clip_success (E : env) (d d' : disk) (src root : string) (s e : Z)
    (m p : string) :
  extract_failure_clip E d src root s e = (inr (true, m, Some p), d') ->
  exists nm d1,
    valid_name nm /\ p = clip_path root nm /\ d' = written p d1
    /\ mkdir (failures_path root) d = inr d1
    /\ unique_output_path d1 (failures_path root) (generate_clip_filename src s e) = Some p
    /\ exists_ d1 p = false.
Proof.
  intros H. pose proof (extract_failure_clip_result E d src root s e) as Hr.
  destruct (get_failures_dir root d) as [ex|[fd d1]] eqn:Hfd; [congruence|].
  destruct Hr as (nm & b & m' & Hnm & Hu & Hfree & Hx).
  apply get_failures_dir_inr in Hfd as [-> Hmk].
  rewrite H in Hx. destruct b; [|done]. simplify_eq. by exists nm, d1.
Qed.

Lemma stem_suffix_differ (nm : string) : nm <> name_stem nm +:+ "_1" +:+ name_suffix nm.
Proof.
  intros H. apply (f_equal String.length) in H.
  rewrite <- (stem_suffix nm) in H at 1. rewrite !length_app in H. simpl in H. lia.
Qed.

(** C8.  The name search of [extract_failure_clip] ends, on a path where
    nothing exists: a clip is only ever written where no file was, and it
    exists afterwards.  Two extractions from the same source whose start
    and end fall in the same seconds, and so derive the same file name,
    write two distinct files, and both exist afterwards; when neither the
    derived name nor the name with [_1] before the suffix existed at the
    start, the first clip has the derived name and the second the name
    with [_1].  For a source with a file extension, the stem of the derived
    name is [{stem}_fail_{start}s-{end}s] and its suffix is the extension
    of the source. *)
Theorem clip_names_never_collide (E : env) (d : disk) (src root : string) (s e : Z) :
  let fn := generate_clip_filename src s e in
  let fn_1 := name_stem fn +:+ "_1" +:+ name_suffix fn in
  (forall fd d1, get_failures_dir root d = inr (fd, d1) ->
     exists p, unique_output_path d1 fd fn = Some p /\ exists_ d1 p = false)
  /\ (forall m p d', extract_failure_clip E d src root s e = (inr (true, m, Some p), d') ->
        exists_ d p = false /\ exists_ d' p = true)
  /\ (forall s2 e2 m1 p1 d1 m2 p2 d2,
        s2 / 1000 = s / 1000 -> e2 / 1000 = e / 1000 ->
        extract_failure_clip E d src root s e = (inr (true, m1, Some p1), d1) ->
        extract_failure_clip E d1 src root s2 e2 = (inr (true, m2, Some p2), d2) ->
        p1 <> p2 /\ exists_ d2 p1 = true /\ exists_ d2 p2 = true
        /\ (exists_ d (clip_path root fn) = false ->
            exists_ d (clip_path root fn_1) = false ->
            p1 = clip_path root fn /\ p2 = clip_path root fn_1))
  /\ (suffix (of_str src) <> "" ->
        name_stem fn = stem (of_str src) +:+ "_fail_" +:+ PyInt.str (s / 1000) +:+ "s-"
                       +:+ PyInt.str (e / 1000) +:+ "s"
        /\ name_suffix fn = suffix (of_str src)).
Proof.
  intros fn fn_1.
  assert (valid_name fn) as Hfn by apply clip_filename_valid.
  assert (valid_name fn_1) as Hfn1.
  { destruct Hfn as [Hsf _].
    apply (candidate_valid (name_stem fn) (name_suffix fn) 1);
      auto using name_stem_slash_free, name_suffix_slash_free. }
  destruct (failures_path_wf root) as [Hwf Hne].
  split_and!.
  - intros fd d1 [-> _]%get_failures_dir_inr.
    destruct (unique_output_path_total d1 root fn Hfn) as (nm & _ & -> & Hfree). eauto.
  - intros m p d' (nm & d1 & Hnm & -> & -> & Hmk & _ & Hfree)%extract_failure_clip_success.
    split.
    + by rewrite <- (exists_after_mkdir d d1).
    + by rewrite exists_written, bool_decide_true.
  - intros s2 e2 m1 p1 d1 m2 p2 d2 Hs He
      (nm1 & dA & Hnm1 & -> & -> & HmkA & Hu1 & Hfree1)%extract_failure_clip_success
      (nm2 & dB & Hnm2 & -> & -> & HmkB & Hu2 & Hfree2)%extract_failure_clip_success.
    assert (generate_clip_filename src s2 e2 = fn) as Hfn2.
    { unfold fn, generate_clip_filename. by rewrite Hs, He. }
    rewrite Hfn2 in Hu2.
    assert (dB = written (clip_path root nm1) dA) as ->.
    { rewrite mkdir_existing in HmkB; [congruence|].
      apply is_dir_written; [done|]. by apply (mkdir_is_dir _ d). }
    rewrite exists_written in Hfree2 by done.
    apply orb_false_elim in Hfree2 as [Hne12 Hfree2].
    apply bool_decide_eq_false in Hne12.
    split_and!.
    + intros H. by apply clip_path_inj in H.
    + by rewrite !exists_written, (bool_decide_true (nm1 = nm1)), orb_true_r.
    + by rewrite exists_written, bool_decide_true.
    + intros HA HB.
      rewrite <- (exists_after_mkdir d dA) in HA, HB by done.
      rewrite unique_output_path_free_name in Hu1, Hu2 by done.
      rewrite free_name_first in Hu1 by done.
      assert (nm1 = fn) as ->.
      { apply (clip_path_inj root); [done..|]. injection Hu1 as Hu1. by rewrite <- Hu1. }
      split; [done|].
      destruct Hfn as [Hsf _].
      rewrite free_name_second in Hu2.
      * symmetry. by injection Hu2.
      * by rewrite exists_written, bool_decide_true.
      * change (exists_ (written (clip_path root fn) dA) (clip_path root fn_1) = false).
        rewrite exists_written, HB, orb_false_r by (done || by split).
        apply bool_decide_eq_false, stem_suffix_differ.
  - intros Hext. unfold suffix in Hext.
    destruct (suffix_proper _ Hext) as (x & Hx & Hdot & Hsuf & _).
    unfold fn, generate_clip_filename, suffix. rewrite Hsuf.
    set (X := stem (of_str src) +:+ "_fail_" +:+ PyInt.str (s / 1000) +:+ "s-"
              +:+ PyInt.str (e / 1000) +:+ "s").
    replace (stem (of_str src) +:+ "_fail_" +:+ PyInt.str (s / 1000) +:+ "s-"
             +:+ PyInt.str (e / 1000) +:+ "s" +:+ String "." x)
      with (X +:+ String "." x) by (unfold X; by rewrite !sapp_assoc).
    apply stem_suffix_app; try done.
    intros HX. apply (f_equal String.length) in HX. unfold X in HX.
    rewrite !length_app in HX. simpl in HX. lia.
Qed.

Lemma clip_names_never_collide_witness :
  let d1 := snd (extract_failure_clip Sample.ffmpeg_ok Sample.videos "/v/a.mp4" "/v" 1500 2500) in
  let d2 := snd (extract_failure_clip Sample.ffmpeg_ok d1 "/v/a.mp4" "/v" 1000 2999) in
  "/v/_failures/a_fail_1s-2s.mp4" <> "/v/_failures/a_fail_1s-2s_1.mp4"
  /\ exists_ d2 "/v/_failures/a_fail_1s-2s.mp4" = true
  /\ exists_ d2 "/v/_failures/a_fail_1s-2s_1.mp4" = true.
Proof.
  intros d1 d2.
  pose proof (proj1 (proj2 (proj2
    (clip_names_never_collide Sample.ffmpeg_ok Sample.videos "/v/a.mp4" "/v" 1500 2500)))
    1000 2999 "Clip saved to: /v/_failures/a_fail_1s-2s.mp4"
    "/v/_failures/a_fail_1s-2s.mp4" d1
    "Clip saved to: /v/_failures/a_fail_1s-2s_1.mp4"
    "/v/_failures/a_fail_1s-2s_1.mp4" d2
    eq_refl eq_refl) as H.
  assert (extract_failure_clip Sample.ffmpeg_ok Sample.videos "/v/a.mp4" "/v" 1500 2500
          = (inr (true, "Clip saved to: /v/_failures/a_fail_1s-2s.mp4",
                  Some "/v/_failures/a_fail_1s-2s.mp4"), d1)) as H1.
  { unfold d1. vm_compute. reflexivity. }
  assert (extract_failure_clip Sample.ffmpeg_ok d1 "/v/a.mp4" "/v" 1000 2999
          = (inr (true, "Clip saved to: /v/_failures/a_fail_1s-2s_1.mp4",
                  Some "/v/_failures/a_fail_1s-2s_1.mp4"), d2)) as H2.
  { unfold d2, d1. vm_compute. reflexivity. }
  destruct (H H1 H2) as (Hne & Hp1 & Hp2 & _). auto.
Defined.

(** C6 (the code departs from the claim).  On a disk where the video root
    holds a regular file named [_failures], [extract_failure_clip] does not
    return a result: [FileExistsError] escapes from the [mkdir] of
    [get_failures_dir], which no [try] block encloses.  [extract_clip] called
    with an output path below that file lets the same exception of its own
    [mkdir], which precedes its [try] block, escape.  [_confirm_segment]
    does not catch it either. *)
Theorem extraction_raises_past_boundary :
  extract_failure_clip Sample.ffmpeg_ok Sample.blocked "/v/a.mp4" "/v" 1500 3999
  = (inl (FileExistsError "/v/_failures"), Sample.blocked)
  /\ extract_clip Sample.ffmpeg_ok Sample.blocked "/v/a.mp4"
       "/v/_failures/a_fail_1s-3s.mp4" 1500 3999
     = (inl (FileExistsError "/v/_failures"), Sample.blocked)
  /\ App._confirm_segment Sample.ffmpeg_ok
       (Sample.selecting Sample.blocked (Some 1500) (Some 3999))
     = App.Raised (FileExistsError "/v/_failures")
         (Sample.selecting Sample.blocked (Some 1500) (Some 3999)).
Proof. split_and!; vm_compute; reflexivity. Qed.

End extractor_claims.

(** ** The claims about the handlers of the window *)
Section handlers.
Import App.

Lemma confirm_segment_validation_witness :
  let E := Sample.ffmpeg_ok in
  let d := Sample.videos in
  (* no mark at all *)
  _confirm_segment E (Sample.selecting d None None)
  = Returned (emit (Sample.selecting d None None)
                (MessageBox Warning "Incomplete Segment"
                   "Please set both start and end points."))
  (* 99 ms *)
  /\ _confirm_segment E (Sample.selecting d (Some 1000) (Some 1099))
     = Returned (emit (Sample.selecting d (Some 1000) (Some 1099))
                   (MessageBox Warning "Segment Too Short"
                      "The selected segment is too short."))
  (* 100 ms *)
  /\ segment_mode (state_of (_confirm_segment E (Sample.selecting d (Some 1000) (Some 1100))))
     = false
  (* the end marked at 100, then the start at 500 *)
  /\ _confirm_segment E (Sample.selecting d (Some 500) (Some 100))
     = match ClipExtractor.extract_failure_clip E d "/v/a.mp4" "/v" 100 500 with
       | (inl ex, d') => Raised ex (set_files (Sample.selecting d (Some 500) (Some 100)) d')
       | (inr (success, message, clip_path), d') =>
           after_extraction (set_files (Sample.selecting d (Some 500) (Some 100)) d')
             success message clip_path
       end
  /\ exists s e, 100 <= Z.max s e - Z.min s e.
Proof.
  intros E d. split_and!.
  - apply (proj1 (confirm_segment_validation E (Sample.selecting d None None) eq_refl)).
    by left.
  - apply (proj1 (proj2 (confirm_segment_validation E
             (Sample.selecting d (Some 1000) (Some 1099)) eq_refl)) 1000 1099); [done..|lia].
  - vm_compute. reflexivity.
  - apply (proj1 (proj2 (proj2 (confirm_segment_validation E
             (Sample.selecting d (Some 500) (Some 100)) eq_refl))) 500 100);
      [done..|lia|done|done].
  - destruct (proj2 (proj2 (proj2 (confirm_segment_validation E
             (Sample.selecting d (Some 1000) (Some 1100)) eq_refl))))
      as (s & e & _ & _ & H); [vm_compute; reflexivity|]. eauto.
Defined.

Lemma next_video_keeps (st : state) :
  let st' := state_of (_next_video st) in
  segment_mode st' = segment_mode st /\ segment_start st' = segment_start st
  /\ segment_end st' = segment_end st /\ ledger st' = ledger st
  /\ files st' = files st.
Proof.
  unfold _next_video, _load_current_video, _show_startup_dialog.
  destruct (_ <=? _); [done|]. by destruct (py_index _ _).
Qed.

Lemma extraction_success_path (E : ClipExtractor.env) (d d' : ClipExtractor.disk)
    (src root message : string) (s e : Z) (clip : option string) :
  ClipExtractor.extract_failure_clip E d src root s e = (inr (true, message, clip), d') ->
  exists p, clip = Some p /\ truthy p = true.
Proof.
  intros H. pose proof (extract_failure_clip_result E d src root s e) as Hr.
  destruct (ClipExtractor.get_failures_dir root d) as [ex|[fd d1]]; [congruence|].
  destruct Hr as (nm & b & m' & Hnm & _ & _ & Hx). rewrite H in Hx.
  destruct b; [|done]. simplify_eq. eauto using clip_path_truthy.
Qed.

Lemma nonempty_truthy (s : string) : truthy s = true -> nonempty s = Some s.
Proof. unfold nonempty. by intros ->. Qed.

Lemma ledger_after_snoc (calls : list Appends.call) (c : Appends.call) :
  Appends.ledger_after (calls ++ [c])
  = Appends.apply_call (Appends.ledger_after calls) c.
Proof. unfold Appends.ledger_after. by rewrite fold_left_app. Qed.

Lemma after_extraction_success (st : state) (message p : string) :
  truthy p = true ->
  after_extraction st true message (Some p)
  = _next_video (_exit_segment_mode (set_ledger st
      (CSVManager.write_fail (ledger st) (default "" (current_video st)) p))).
Proof. unfold after_extraction. simpl. by intros ->. Qed.

(** C2.  In segment mode with both marks set, at least 100 ms apart:
    when [extract_failure_clip] returns a failure, the handler shows the
    failure and the window stays in segment mode with the same start and
    end, and the ledger is as it was; the same holds when an exception
    escapes from the extractor.  When it returns a success, the ledger gets
    a Fail record with the clip path produced (after any sequence of
    appends, [get_all_entries] returns the former entries followed by the
    Fail entry with that path), and the window leaves segment mode with
    both marks cleared. *)
Theorem confirm_segment_extraction (E : ClipExtractor.env) (st : state)
    (s e : Z) (video root : string) :
  segment_mode st = true ->
  segment_start st = Some s -> segment_end st = Some e ->
  100 <= Z.max s e - Z.min s e ->
  current_video st = Some video -> root_dir st = Some root ->
  let r := ClipExtractor.extract_failure_clip E (files st) video root
             (Z.min s e) (Z.max s e) in
  let st' := state_of (_confirm_segment E st) in
  (forall message clip d, r = (inr (false, message, clip), d) ->
     _confirm_segment E st
     = Returned (emit (set_files st d)
                   (MessageBox Critical "Extraction Failed"
                      ("Failed to extract clip:" +:+ String LF message)))
     /\ segment_mode st' = true /\ segment_start st' = Some s
     /\ segment_end st' = Some e /\ ledger st' = ledger st)
  /\ (forall ex d, r = (inl ex, d) ->
        _confirm_segment E st = Raised ex (set_files st d)
        /\ segment_mode st' = true /\ segment_start st' = Some s
        /\ segment_end st' = Some e /\ ledger st' = ledger st)
  /\ (forall message clip d, r = (inr (true, message, clip), d) ->
        exists p, clip = Some p
          /\ segment_mode st' = false /\ segment_start st' = None
          /\ segment_end st' = None
          /\ ledger st' = CSVManager.write_fail (ledger st) video p
          /\ (forall calls, ledger st = Appends.ledger_after calls ->
                CSVManager.get_all_entries (ledger st')
                = (Appends.entry_of <$> calls) ++ [(video, 0, Some p)])).
Proof.
  intros Hmode Hs He Hlen Hv Hr r st'.
  pose proof (proj1 (proj2 (proj2 (confirm_segment_validation_core E st Hmode)))
                s e video root Hs He Hlen Hv Hr) as Hc.
  fold r in Hc. subst st'. rewrite Hc. split_and!.
  - intros message clip d ->. unfold after_extraction. cbn [andb].
    cbn [state_of emit set_files segment_mode segment_start segment_end ledger]. auto.
  - intros ex d ->.
    cbn [state_of emit set_files segment_mode segment_start segment_end ledger]. auto.
  - intros message clip d Hx. rewrite Hx.
    destruct (extraction_success_path _ _ _ _ _ _ _ _ _ Hx) as (p & -> & Hp).
    exists p. split; [done|]. rewrite after_extraction_success by done.
    destruct (next_video_keeps (_exit_segment_mode (set_ledger (set_files st d)
                (CSVManager.write_fail (ledger (set_files st d))
                   (default "" (current_video (set_files st d))) p))))
      as (H1 & H2 & H3 & H4 & _).
    rewrite H1, H2, H3, H4.
    cbn [_exit_segment_mode set_segment set_ledger set_files segment_mode segment_start
         segment_end ledger current_video]. rewrite Hv. simpl default.
    split_and!; try done.
    intros calls ->.
    change (CSVManager.write_fail (Appends.ledger_after calls) video p)
      with (Appends.apply_call (Appends.ledger_after calls) (Appends.AppendFail video p)).
    rewrite <- ledger_after_snoc.
    rewrite get_all_entries_ledger_after, fmap_app. simpl.
    by rewrite nonempty_truthy.
Qed.

End handlers.

Section handlers_more.
Import App.

Lemma confirm_segment_extraction_witness :
  let st := Sample.selecting Sample.videos (Some 2500) (Some 1500) in
  let st_fail := state_of (_confirm_segment Sample.ffmpeg_failing st) in
  let st_ok := state_of (_confirm_segment Sample.ffmpeg_ok st) in
  let st_raise :=
    state_of (_confirm_segment Sample.ffmpeg_ok
                (Sample.selecting Sample.blocked (Some 2500) (Some 1500))) in
  (segment_mode st_fail = true /\ segment_start st_fail = Some 2500
   /\ segment_end st_fail = Some 1500 /\ ledger st_fail = Some "")
  /\ (segment_mode st_raise = true /\ segment_start st_raise = Some 2500
      /\ segment_end st_raise = Some 1500 /\ ledger st_raise = Some "")
  /\ (segment_mode st_ok = false /\ segment_start st_ok = None
      /\ segment_end st_ok = None
      /\ CSVManager.get_all_entries (ledger st_ok)
         = [("/v/a.mp4", 0, Some "/v/_failures/a_fail_1s-2s.mp4")]).
Proof.
  intros st st_fail st_ok st_raise.
  assert (100 <= Z.max 2500 1500 - Z.min 2500 1500) as Hlen by (vm_compute; discriminate).
  split; [|split].
  - destruct (proj1 (confirm_segment_extraction Sample.ffmpeg_failing st 2500 1500
                       "/v/a.mp4" "/v" eq_refl eq_refl eq_refl Hlen eq_refl eq_refl)
                "FFmpeg error: Invalid data found when processing input" None
                (snd (ClipExtractor.extract_failure_clip Sample.ffmpeg_failing
                        Sample.videos "/v/a.mp4" "/v" 1500 2500)))
      as (_ & H1 & H2 & H3 & H4); [vm_compute; reflexivity|].
    split_and!; [exact H1|exact H2|exact H3|exact H4].
  - destruct (proj1 (proj2 (confirm_segment_extraction Sample.ffmpeg_ok
                       (Sample.selecting Sample.blocked (Some 2500) (Some 1500)) 2500 1500
                       "/v/a.mp4" "/v" eq_refl eq_refl eq_refl Hlen eq_refl eq_refl))
                (FileExistsError "/v/_failures") Sample.blocked)
      as (_ & H1 & H2 & H3 & H4); [vm_compute; reflexivity|].
    split_and!; [exact H1|exact H2|exact H3|exact H4].
  - destruct (proj2 (proj2 (confirm_segment_extraction Sample.ffmpeg_ok st 2500 1500
                       "/v/a.mp4" "/v" eq_refl eq_refl eq_refl Hlen eq_refl eq_refl))
                "Clip saved to: /v/_failures/a_fail_1s-2s.mp4"
                (Some "/v/_failures/a_fail_1s-2s.mp4")
                (snd (ClipExtractor.extract_failure_clip Sample.ffmpeg_ok
                        Sample.videos "/v/a.mp4" "/v" 1500 2500)))
      as (p & Hp & H1 & H2 & H3 & _ & H5); [vm_compute; reflexivity|].
    injection Hp as <-.
    split_and!; [exact H1|exact H2|exact H3|exact (H5 [] eq_refl)].
Defined.

(** C7 (the code departs from the claim).  With a video under review and
    outside segment mode, when the user accepts the note dialog, with
    whatever note, [_mark_uncertain] calls [write_uncertain] with the video
    and the note; the method takes the video only, so [TypeError] is
    raised: no entry is appended to the ledger and the queue does not
    advance. *)
Theorem mark_uncertain_raises (st : state) (note : string) :
  segment_mode st = false -> no_video st = false ->
  _mark_uncertain st note true
  = Raised (TypeError
              "CSVManager.write_uncertain() takes 2 positional arguments but 3 were given")
           (emit st PlayerPause)
  /\ ledger (state_of (_mark_uncertain st note true)) = ledger st
  /\ current_index (state_of (_mark_uncertain st note true)) = current_index st.
Proof.
  intros Hmode Hvideo. unfold _mark_uncertain. rewrite Hmode, Hvideo. done.
Qed.

Lemma mark_uncertain_raises_witness :
  _mark_uncertain (Sample.reviewing Sample.videos) "blurry, cannot tell" true
  = Raised (TypeError
              "CSVManager.write_uncertain() takes 2 positional arguments but 3 were given")
           (emit (Sample.reviewing Sample.videos) PlayerPause)
  /\ CSVManager.get_all_entries
       (ledger (state_of (_mark_uncertain (Sample.reviewing Sample.videos)
                            "blurry, cannot tell" true))) = [].
Proof.
  destruct (mark_uncertain_raises (Sample.reviewing Sample.videos) "blurry, cannot tell"
              eq_refl eq_refl) as (H1 & H2 & _).
  split; [exact H1|]. rewrite H2. reflexivity.
Defined.

(** C10 (the code departs from the claim).  For a root of which [os.stat]
    reports that it is absent, and for a root that is not a directory,
    [scan_directory] returns the empty list, and a session started on it
    gets the empty queue, the warning that no video was found and the
    startup dialog again.  But when [stat] fails on the root with another
    error, as it does for a root that cannot exist because a component of
    its name is too long, [root.exists()] raises: the error leaves
    [scan_directory] and, nothing catching it, [_scan_and_load_videos],
    and the window is left as it was. *)
Theorem scan_root_error_escapes (resolve : string -> string) (root : string)
    (st : state) (e : exn) :
  root_dir st = Some root ->
  VideoScanner.scan_directory resolve root (VideoScanner.StatFails e) = inl e
  /\ _scan_and_load_videos resolve (VideoScanner.StatFails e) st = Raised e st
  /\ (forall r, r = VideoScanner.Absent \/ r = VideoScanner.NotADirectory ->
        VideoScanner.scan_directory resolve root r = inr []
        /\ _scan_and_load_videos resolve r st
           = Returned (emit (emit (set_queue st [])
                               (MessageBox Warning "No Videos"
                                  "No video files found in the selected directory."))
                         StartupDialog)).
Proof.
  intros Hroot. split_and!.
  - reflexivity.
  - unfold _scan_and_load_videos. by rewrite Hroot.
  - intros r Hr.
    assert (VideoScanner.scan_directory resolve root r = inr []) as Hscan
      by (by destruct Hr as [-> | ->]).
    split; [done|]. unfold _scan_and_load_videos. by rewrite Hroot, Hscan.
Qed.

Lemma scan_root_error_escapes_witness :
  let st := Sample.starting Sample.long_root in
  VideoScanner.scan_directory id Sample.long_root
    (VideoScanner.StatFails (Sample.name_too_long Sample.long_root))
  = inl (Sample.name_too_long Sample.long_root)
  /\ _scan_and_load_videos id
       (VideoScanner.StatFails (Sample.name_too_long Sample.long_root)) st
     = Raised (Sample.name_too_long Sample.long_root) st
  /\ VideoScanner.scan_directory id Sample.long_root VideoScanner.Absent = inr [].
Proof.
  intros st.
  destruct (scan_root_error_escapes id Sample.long_root st
              (Sample.name_too_long Sample.long_root) eq_refl) as (H1 & H2 & H3).
  split_and!; [exact H1|exact H2|].
  exact (proj1 (H3 VideoScanner.Absent (or_introl eq_refl))).
Defined.

End handlers_more.

(** ** The catalog scan *)
Section catalog.
Import Path Names VideoScanner Catalog.

(** Induction on a directory tree. *)
Lemma dir_ind (P : dir -> Prop) :
  (forall filenames subdirs,
     Forall (fun ns : string * dir => P (snd ns)) subdirs -> P (Dir filenames subdirs)) ->
  forall d, P d.
Proof.
  intros H. fix IH 1. intros [fs ss]. apply H.
  induction ss as [|[n sub] ss IHss]; constructor; [apply IH|exact IHss].
Qed.

Lemma wf_dir_Dir (fs : list string) (ss : list (string * dir)) :
  wf_dir (Dir fs ss) <->
  Forall valid_name fs /\ Forall valid_name (fst <$> ss) /\ NoDup (fst <$> ss)
  /\ Forall (fun ns : string * dir => wf_dir (snd ns)) ss.
Proof.
  cbn [wf_dir].
  assert ((fix all (l : list (string * dir)) : Prop :=
             match l with [] => True | (_, sub) :: l' => wf_dir sub /\ all l' end) ss
          <-> Forall (fun ns : string * dir => wf_dir (snd ns)) ss) as ->; [|done].
  induction ss as [|[n sub] ss IH]; [by split|].
  rewrite Forall_cons, <- IH. done.
Qed.

Lemma descend_elem (W : string -> dir -> list string) (top : string)
    (l : list (string * dir)) : forall (removed : bool) (x : string),
  (removed = true -> "_failures" ∉ (fst <$> l)) ->
  NoDup (fst <$> l) ->
  x ∈ descend_with W top removed l <->
  exists n sub, (n, sub) ∈ l /\ n <> "_failures" /\ x ∈ W (os_path_join top n) sub.
Proof.
  induction l as [|[n sub] l IH]; intros removed x Hrem Hnd.
  - simpl. split; [by intros ?%elem_of_nil|by intros (? & ? & ?%elem_of_nil & _)].
  - cbn [descend_with]. apply NoDup_cons in Hnd as [Hn Hnd]. simpl in Hn.
    destruct (String.eqb_spec n "_failures") as [->|Hne].
    + destruct removed.
      { exfalso. apply Hrem; [done|]. simpl. by left. }
      cbn [negb andb]. rewrite IH by done. split.
      * intros (n' & sub' & Hin & ?). exists n', sub'. split; [by right|done].
      * intros (n' & sub' & Hin & Hne' & ?). exists n', sub'.
        apply elem_of_cons in Hin as [?|Hin]; [by simplify_eq|done].
    + rewrite andb_false_r, elem_of_app, IH; [|intros ->|done].
      2:{ intros Hin. apply Hrem; [done|]. simpl. by right. }
      split.
      * intros [?|(n' & sub' & Hin & ?)]; [exists n, sub|exists n', sub'].
        -- split; [by left|done].
        -- split; [by right|done].
      * intros (n' & sub' & Hin & Hne' & ?).
        apply elem_of_cons in Hin as [?|Hin]; [left; by simplify_eq|right; eauto].
Qed.

Lemma videos_in_elem (resolve : string -> string) (top : string) (fs : list string)
    (x : string) :
  x ∈ videos_in resolve top fs <->
  exists f, f ∈ fs /\ is_video_file (joinpath (of_str top) f) = true
            /\ x = resolve (to_str (joinpath (of_str top) f)).
Proof.
  unfold videos_in. rewrite list_elem_of_In, in_flat_map. split.
  - intros (f & Hf & Hx). exists f. rewrite list_elem_of_In. split; [done|].
    destruct (is_video_file _); [|done]. split; [done|].
    by destruct Hx as [<-|[]].
  - intros (f & Hf & Hv & ->). exists f. rewrite list_elem_of_In in Hf.
    split; [done|]. rewrite Hv. by left.
Qed.

Lemma is_video_file_joinpath (p : PurePath) (f : string) :
  valid_name f -> is_video_file (joinpath p f) = is_video_name f.
Proof.
  intros Hf. unfold is_video_file, is_video_name, suffix. by rewrite name_joinpath.
Qed.

Lemma ends_with_sep_app (a b : string) :
  b <> "" -> ends_with_sep (a +:+ b) = ends_with_sep b.
Proof.
  intros Hb. induction a as [|c a IH]; [done|].
  rewrite sapp_cons. cbn [ends_with_sep]. rewrite IH.
  destruct (a +:+ b) eqn:E; [|done]. by destruct a, b.
Qed.

Lemma ends_with_sep_slash_free (s : string) : slash_free s -> ends_with_sep s = false.
Proof.
  unfold slash_free. induction s as [|c s IH]; [done|]. simpl.
  intros [Hc Hs]%orb_false_elim. destruct s; [done|]. by apply IH.
Qed.

Lemma valid_name_nonempty (n : string) : valid_name n -> n <> "".
Proof. by intros [_ H] ->. Qed.

Lemma join_ends (ps : list string) :
  Forall valid_name ps -> ps <> [] -> 
  join (String sep "") ps <> "" /\ ends_with_sep (join (String sep "") ps) = false.
Proof.
  intros Hps Hne. destruct ps as [|a ps] using rev_ind; [done|]. clear IHps.
  apply Forall_app in Hps as [_ Ha]. inversion_clear Ha as [|?? Ha' _].
  pose proof (valid_name_nonempty a Ha') as Hane. destruct Ha' as [Hsf _].
  destruct ps as [|b ps].
  - simpl. split; [done|]. by apply ends_with_sep_slash_free.
  - rewrite join_snoc by done. split.
    + destruct (join _ _); done.
    + rewrite ends_with_sep_app by done.
      change (String sep a) with (String sep "" +:+ a).
      rewrite ends_with_sep_app by done. by apply ends_with_sep_slash_free.
Qed.

Lemma to_str_ends (p : PurePath) :
  wf_path p -> parts p <> [] -> to_str p <> "" /\ ends_with_sep (to_str p) = false.
Proof.
  intros [_ Hv] Hne. destruct p as [r ps]. simpl in *.
  destruct ps as [|a ps]; [done|]. rewrite to_str_cons.
  destruct (join_ends (a :: ps) Hv Hne) as [Hj He]. split.
  - destruct r; [done|done].
  - by rewrite ends_with_sep_app.
Qed.

Lemma dirpath_root (s : string) : dirpath_of (to_str (of_str s)) (of_str s).
Proof. split; [apply wf_of_str|by left]. Qed.

Lemma dirpath_of_str (top : string) (p : PurePath) : dirpath_of top p -> of_str top = p.
Proof.
  intros [Hwf [->|(Hr & Hne & ->)]]; [by apply of_str_to_str|].
  pose proof (of_str_to_str p Hwf) as Hp. unfold of_str in *.
  change ("./" +:+ to_str p) with (String "." (String sep (to_str p))).
  destruct p as [r ps]. simpl in Hr. subst r.
  injection Hp as _ Hparts. f_equal.
  replace (split sep (String "." (String sep (to_str (mkPath "" ps)))))
    with ("." :: split sep (to_str (mkPath "" ps))) by done.
  done.
Qed.

Lemma dirpath_join (top : string) (p : PurePath) (n : string) :
  dirpath_of top p -> valid_name n -> dirpath_of (os_path_join top n) (joinpath p n).
Proof.
  intros [Hwf Htop] Hn. split; [by apply wf_joinpath|].
  rewrite joinpath_name by done. unfold os_path_join.
  destruct Htop as [->|(Hr & Hne & ->)].
  - destruct (decide (parts p = [])) as [Hnil|Hne].
    + destruct p as [r ps]. simpl in Hnil. subst ps. destruct Hwf as [Hr _]. simpl in Hr.
      destruct Hr as [->|[->| ->]].
      * right. by split_and!.
      * by left.
      * by left.
    + left. destruct (to_str_ends p Hwf Hne) as [Hnon ->].
      destruct (to_str p) eqn:E; [done|]. rewrite <- E.
      change ("/" +:+ n) with (String sep n).
      rewrite <- (to_str_joinpath p n) by done. by rewrite joinpath_name.
  - right. cbn [root parts]. split_and!; [done|by destruct (parts p)|].
    destruct (to_str_ends p Hwf Hne) as [Hnon He].
    rewrite ends_with_sep_app, He by done.
    change ("./" +:+ to_str p) with (String "." (String sep (to_str p))).
    rewrite <- (joinpath_name p n) by done. rewrite to_str_joinpath by done.
    reflexivity.
Qed.


(** What [os.walk] with the loop body of [scan_directory] collects. *)
Lemma walk_elem (resolve : string -> string) (d : dir) :
  wf_dir d -> forall (top : string) (p : PurePath) (x : string),
  dirpath_of top p ->
  x ∈ walk resolve top d <->
  exists dirs filename,
    listed d dirs filename /\ ("_failures" ∉ dirs) /\ is_video_name filename = true
    /\ x = resolve (to_str (entry_path p dirs filename)).
Proof.
  induction d as [fs ss IH] using dir_ind.
  intros (Hfs & Hns & Hnd & Hss)%wf_dir_Dir top p x Htop.
  cbn [walk]. rewrite elem_of_app, videos_in_elem, descend_elem by done.
  rewrite (dirpath_of_str top p Htop).
  rewrite Forall_forall in Hfs. rewrite Forall_forall in Hss.
  rewrite Forall_forall in IH. split.
  - intros [(f & Hf & Hv & ->)|(n & sub & Hin & Hne & Hx)].
    + exists [], f. rewrite is_video_file_joinpath in Hv by auto.
      split_and!; [by constructor|by apply not_elem_of_nil|done|done].
    + apply (IH _ Hin (Hss _ Hin) (os_path_join top n) (joinpath p n)) in Hx
        as (dirs & f & Hl & Hd & Hv & ->).
      * exists (n :: dirs), f. split_and!; [by econstructor| |done|done].
        by apply not_elem_of_cons.
      * apply dirpath_join; [done|].
        rewrite Forall_forall in Hns. apply Hns, list_elem_of_fmap. by exists (n, sub).
  - intros (dirs & f & Hl & Hd & Hv & ->).
    inversion Hl as [|? ? n sub dirs' ? Hin Hl']; subst.
    + left. exists f. rewrite is_video_file_joinpath by auto. done.
    + right. apply not_elem_of_cons in Hd as [Hne Hd]. exists n, sub.
      split_and!; [done|done|].
      apply (IH _ Hin (Hss _ Hin) (os_path_join top n) (joinpath p n)).
      * apply dirpath_join; [done|].
        rewrite Forall_forall in Hns. apply Hns, list_elem_of_fmap. by exists (n, sub).
      * by exists dirs', f.
Qed.

End catalog.

(** ** The order of the scan *)
Section scan_order.
Import Path Names VideoScanner Catalog.

Lemma lower_char_dot (c : ascii) : Ascii.eqb (lower_char c) "." = Ascii.eqb c ".".
Proof. destruct c as [[] [] [] [] [] [] [] []]; reflexivity. Qed.

Lemma rfind_lower (s : string) : rfind "." (lower s) = rfind "." s.
Proof. induction s as [|c s IH]; [done|]. simpl. by rewrite IH, lower_char_dot. Qed.

Lemma length_lower (s : string) : String.length (lower s) = String.length s.
Proof. induction s as [|c s IH]; [done|]. simpl. by rewrite IH. Qed.

Lemma drop_lower (i : nat) (s : string) : drop i (lower s) = lower (drop i s).
Proof. revert s. induction i as [|i IH]; intros [|c s]; try done. simpl. apply IH. Qed.

Lemma name_suffix_lower (s : string) : name_suffix (lower s) = lower (name_suffix s).
Proof.
  unfold name_suffix, suffix_index. rewrite rfind_lower, length_lower.
  destruct (rfind "." s) as [i|]; [|done].
  destruct (_ && _); [apply drop_lower|done].
Qed.

Lemma lower_lower (s : string) : lower (lower s) = lower s.
Proof.
  induction s as [|c s IH]; [done|]. simpl. rewrite IH. f_equal.
  destruct c as [[] [] [] [] [] [] [] []]; reflexivity.
Qed.

(** The extension test does not look at the letter case of the name. *)
Lemma is_video_name_case (a b : string) :
  lower a = lower b -> is_video_name a = is_video_name b.
Proof.
  intros H. unfold is_video_name.
  rewrite <- (lower_lower (name_suffix a)), <- (lower_lower (name_suffix b)).
  by rewrite <- !name_suffix_lower, H.
Qed.

Lemma descend_filter (W : string -> dir -> list string) (top : string)
    (l : list (string * dir)) : forall removed : bool,
  (removed = true -> "_failures" ∉ (fst <$> l)) ->
  NoDup (fst <$> l) ->
  descend_with W top removed l
  = flat_map (fun ns => W (os_path_join top (fst ns)) (snd ns))
      (filter (fun ns : string * dir => fst ns <> "_failures") l).
Proof.
  induction l as [|[n sub] l IH]; intros removed Hrem Hnd; [done|].
  cbn [descend_with]. apply NoDup_cons in Hnd as [Hn Hnd]. simpl in Hn.
  destruct (String.eqb_spec n "_failures") as [->|Hne].
  - destruct removed.
    { exfalso. apply Hrem; [done|]. simpl. by left. }
    cbn [negb andb]. rewrite filter_cons_False by (simpl; auto).
    by apply IH.
  - rewrite andb_false_r, filter_cons_True by done. simpl. f_equal.
    apply IH; [|done]. intros -> Hin. apply Hrem; [done|]. simpl. by right.
Qed.

Lemma flat_map_related {A : Type} (f g : A -> list string) (keep : A -> Prop)
    `{!forall a, Decision (keep a)} (R : A -> A -> Prop) (l l' : list A) :
  Forall2 R l l' ->
  (forall a b, a ∈ l -> b ∈ l' -> R a b -> (keep a <-> keep b) /\ f a ≡ₚ g b) ->
  flat_map f (filter keep l) ≡ₚ flat_map g (filter keep l').
Proof.
  induction 1 as [|a b l l' Hab Hl IH]; intros HR; [done|].
  destruct (HR a b) as [Hk Hfg]; [by left|by left|done|].
  assert (flat_map f (filter keep l) ≡ₚ flat_map g (filter keep l')) as IH'.
  { apply IH. intros a' b' Hin Hin'. apply HR; by right. }
  destruct (decide (keep a)) as [Ha|Ha].
  - rewrite !filter_cons_True by tauto. simpl. by rewrite Hfg, IH'.
  - rewrite !filter_cons_False by tauto. done.
Qed.

(** The walk of a tree lists the same paths whatever the order of the
    entries. *)
Lemma walk_reordered (resolve : string -> string) (d : dir) :
  wf_dir d -> forall d', wf_dir d' -> dir_equiv d d' ->
  forall top, walk resolve top d ≡ₚ walk resolve top d'.
Proof.
  induction d as [fs ss IH] using dir_ind.
  intros (_ & _ & Hnd & Hss)%wf_dir_Dir d' Hwf' Heq top.
  inversion Heq as [? fs' ? ss' ss2 Hfs Hall Hperm]; subst.
  apply wf_dir_Dir in Hwf' as (_ & _ & Hnd' & Hss').
  cbn [walk]. rewrite !descend_filter by done.
  apply Permutation_app.
  - unfold videos_in. by apply Permutation_flat_map.
  - rewrite <- Hperm.
    apply (flat_map_related _ _ _ _ _ _ Hall).
    intros [n sub] [n' sub'] Hin Hin' [Hn Hsub]. simpl in Hn, Hsub. subst n'.
    split; [done|]. simpl.
    rewrite Forall_forall in IH. rewrite Forall_forall in Hss.
    apply (IH _ Hin (Hss _ Hin)); [|done].
    rewrite <- Hperm in Hss'. rewrite Forall_forall in Hss'.
    apply (Hss' (n, sub') Hin').
Qed.

Lemma sorted_reordered (l l' : list string) : l ≡ₚ l' -> sorted l = sorted l'.
Proof.
  intros H. unfold sorted. apply (Sorted_unique String.le).
  - apply Sorted_merge_sort. apply _.
  - apply Sorted_merge_sort. apply _.
  - by rewrite !merge_sort_Permutation.
Qed.

Lemma sorted_elem (l : list string) (x : string) : x ∈ sorted l <-> x ∈ l.
Proof. unfold sorted. by rewrite merge_sort_Permutation. Qed.

End scan_order.

(** ** The claim about the catalog scan *)
Section scan_claim.
Import Path Names VideoScanner Catalog.

(** C9.  On a root that is a directory, [scan_directory] returns a list
    sorted by the order of strings.  A path is in the list exactly when it
    is the resolved path of a file that is reached from the root through
    subdirectories none of which is named [_failures], at whatever depth,
    and whose name has a video extension; the extension test ignores the
    letter case.  The paths are absolute, as resolved paths are.  The list
    is the same whatever the order in which the file system reports the
    entries of the directories. *)
Theorem scan_directory_lists_videos (resolve : string -> string) (root_path : string)
    (d : dir) :
  wf_dir d ->
  exists result,
    scan_directory resolve root_path (Directory d) = inr result
    /\ Sorted String.le result
    /\ (forall x, x ∈ result <->
          exists dirs filename,
            listed d dirs filename /\ ("_failures" ∉ dirs)
            /\ is_video_name filename = true
            /\ x = resolve (to_str (entry_path (of_str root_path) dirs filename)))
    /\ (forall a b, lower a = lower b -> is_video_name a = is_video_name b)
    /\ ((forall s, is_absolute (resolve s)) -> Forall is_absolute result)
    /\ (forall d', wf_dir d' -> dir_equiv d d' ->
          scan_directory resolve root_path (Directory d') = inr result).
Proof.
  intros Hwf.
  exists (sorted (walk resolve (to_str (of_str root_path)) d)).
  set (result := sorted (walk resolve (to_str (of_str root_path)) d)).
  assert (forall x, x ∈ result <->
            exists dirs filename,
              listed d dirs filename /\ ("_failures" ∉ dirs)
              /\ is_video_name filename = true
              /\ x = resolve (to_str (entry_path (of_str root_path) dirs filename)))
    as Helem.
  { intros x. unfold result. rewrite sorted_elem.
    apply walk_elem; [done|]. apply dirpath_root. }
  split_and!.
  - reflexivity.
  - apply Sorted_merge_sort. apply _.
  - exact Helem.
  - apply is_video_name_case.
  - intros Habs. apply Forall_forall. intros x (?&?&_&_&_&->)%Helem. apply Habs.
  - intros d' Hwf' Heq. unfold scan_directory.
    cbn [root_exists root_is_dir listing]. f_equal. unfold result. symmetry.
    by apply sorted_reordered, walk_reordered.
Qed.

Lemma valid_names_decide (l : list string) :
  forallb (fun s => negb (string_exists (fun c => Ascii.eqb c sep) s) && is_component s) l
  = true -> Forall valid_name l.
Proof.
  intros H. apply Forall_forall. intros s Hs%list_elem_of_In.
  rewrite forallb_forall in H. specialize (H s Hs).
  apply andb_true_iff in H as [H1 H2]. split; [|done].
  unfold slash_free. by destruct (string_exists _ s).
Qed.

Lemma sample_tree_wf : wf_dir Sample.tree /\ wf_dir Sample.tree_reordered.
Proof.
  split; simpl; split_and!;
    try exact I;
    try (apply valid_names_decide; vm_compute; reflexivity);
    try (apply NoDup_ListNoDup; repeat constructor; simpl; intuition congruence).
Qed.

Lemma sample_tree_equiv : dir_equiv Sample.tree Sample.tree_reordered.
Proof.
  eapply (dir_equiv_Dir _ _ _ _
            [("sub", Dir ["c.mkv"] [("_failures", Dir ["c_fail_0s-1s.mkv"] [])]);
             ("_failures", Dir ["a_fail_1s-2s.mp4"] [])]).
  - apply (bool_decide_unpack _). vm_compute. exact I.
  - assert (forall d0, d0 = Dir ["c_fail_0s-1s.mkv"] [] \/ d0 = Dir ["a_fail_1s-2s.mp4"] []
                       -> dir_equiv d0 d0) as Hleaf.
    { intros d0 [-> | ->]; by eapply (dir_equiv_Dir _ _ _ _ []). }
    repeat constructor; simpl; auto.
    eapply (dir_equiv_Dir _ _ _ _ [("_failures", Dir ["c_fail_0s-1s.mkv"] [])]); [done| |done].
    repeat constructor; simpl; auto.
  - apply perm_swap.
Qed.

Lemma scan_directory_lists_videos_witness :
  scan_directory id "/v" (Directory Sample.tree)
  = inr ["/v/Z.MP4"; "/v/a.mp4"; "/v/b.mov"; "/v/sub/c.mkv"]
  /\ Sorted String.le ["/v/Z.MP4"; "/v/a.mp4"; "/v/b.mov"; "/v/sub/c.mkv"]
  /\ scan_directory id "/v" (Directory Sample.tree_reordered)
     = scan_directory id "/v" (Directory Sample.tree)
  /\ "/v/sub/c.mkv" ∈ ["/v/Z.MP4"; "/v/a.mp4"; "/v/b.mov"; "/v/sub/c.mkv"].
Proof.
  destruct (scan_directory_lists_videos id "/v" Sample.tree (proj1 sample_tree_wf))
    as (result & Hscan & Hsorted & Helem & _ & _ & Horder).
  assert (scan_directory id "/v" (Directory Sample.tree)
          = inr ["/v/Z.MP4"; "/v/a.mp4"; "/v/b.mov"; "/v/sub/c.mkv"]) as Hvalue
    by (vm_compute; reflexivity).
  assert (result = ["/v/Z.MP4"; "/v/a.mp4"; "/v/b.mov"; "/v/sub/c.mkv"]) as Hresult
    by congruence.
  rewrite Hresult in Hsorted, Helem, Horder.
  split_and!.
  - exact Hvalue.
  - exact Hsorted.
  - rewrite Hvalue.
    exact (Horder Sample.tree_reordered (proj2 sample_tree_wf) sample_tree_equiv).
  - apply Helem. exists ["sub"], "c.mkv". split_and!.
    + econstructor; [|by constructor; left]. by left.
    + by intros [?|?%elem_of_nil]%elem_of_cons.
    + vm_compute. reflexivity.
    + vm_compute. reflexivity.
Defined.

End scan_claim.

(** ** More on the ledger *)
Section ledger_more.
Import CSVManager Appends LedgerOps.











End ledger_more.

(** ** Video names and clip names *)
Section video_names.
Import Path Names ClipExtractor VideoScanner Catalog Clips.









End video_names.

(** ** The scan and the clips *)
Section scan_and_clips.
Import Path Names ClipExtractor VideoScanner Catalog Clips.









End scan_and_clips.

(** ** No video is listed twice *)
Section scan_once.
Import Path Names ClipExtractor VideoScanner Catalog Clips Listing.







End scan_once.

(** ** Resuming a session *)
Section resume.
Import Path Names CSVManager Appends VideoScanner Catalog App.






End resume.

(** ** What the extractor leaves on disk *)
Section disk_frame.
Import Path Names ClipExtractor Clips.









End disk_frame.

(** ** Runs of handlers *)
Section sessions.
Import CSVManager Appends App Session.








End sessions.

(** ** Properties of the runs *)
Section session_claims.
Import CSVManager Appends App Session.











End session_claims.

(** ** The widgets *)
Section widgets.
Import Timeline VideoPlayer.





End widgets.

(** ** The time display *)
Section display.
Import PyInt ClipExtractor Display.











End display.

(** ** Normalised paths *)
Section normal_paths.
Import Path Names CSVManager Normal.















End normal_paths.

(** ** What no handler does *)
Section run_frame.
Import CSVManager Appends App Session.





End run_frame.
